(** * cvxcore: assembly of the parameter-indexed coefficient tensor

    A shallow embedding of [cvxpy/cvxcore/src/cvxcore.cpp] and the
    properties of its offset calculator, tensor initialiser, triplet
    accumulator, constraint processor and matrix builder.

    Conventions.
    - A C++ [int] is a [Z] in the 32-bit two's complement range; [+] and
      [*] on [int] are [int_add] and [int_mul], which reduce the exact
      result back into that range.
    - A [double] is a primitive binary64 float.
    - [std::vector] is [list]; [std::map<int, T>] supplied by the caller is
      [gmap Z T]; the maps returned by the evaluator are only ever iterated,
      and are kept as association lists in iteration (ascending key) order.
    - [exit(-1)] and a thrown exception end the run with a [failure].
    - The diagnostic lines written to [std::cout] are not part of the
      model. *)

From Stdlib Require Import ZArith Lia PrimFloat.
From stdpp Require Import base option list gmap fin_maps.

Open Scope Z_scope.

(* ===================================================================== *)
(** ** Machine integers *)
(* ===================================================================== *)

Definition INT_MIN : Z := - 2 ^ 31.
Definition INT_MAX : Z := 2 ^ 31 - 1.

Definition int_range (x : Z) : Prop := INT_MIN <= x <= INT_MAX.

Definition int_wrap (x : Z) : Z := (x + 2 ^ 31) mod 2 ^ 32 - 2 ^ 31.

Definition int_add (a b : Z) : Z := int_wrap (a + b).
Definition int_mul (a b : Z) : Z := int_wrap (a * b).

(* ===================================================================== *)
(** ** Failures *)
(* ===================================================================== *)

(** [LengthMismatch] and [NotMonotone] are the two [exit(-1)] paths of the
    explicit offset calculator; [BadVectorSize] is the [std::length_error]
    of constructing a [std::vector] from a negative [int] count. *)
Inductive failure : Type :=
  | LengthMismatch
  | NotMonotone
  | BadVectorSize.

Inductive result (A : Type) : Type :=
  | Ok (a : A)
  | Fail (e : failure).
Arguments Ok {A} a.
Arguments Fail {A} e.

#[global] Instance result_ret : MRet result := fun _ a => Ok a.
#[global] Instance result_bind : MBind result := fun _ _ k r =>
  match r with
  | Ok a => k a
  | Fail e => Fail e
  end.

(* ===================================================================== *)
(** ** Sparse blocks and coordinate data *)
(* ===================================================================== *)

(** Modelled from the spec: the type [Matrix] (a column-major
    [Eigen::SparseMatrix<double>], declared in [Utils.hpp]) is not part of
    the sources at hand.  A Sparse Block is a [rows] x [cols] matrix whose
    structurally non-zero entries are reachable through an outer index [k]
    (the column) and an inner iterator giving [row] and [value];
    [outer block] lists, for each outer index in turn, the stored
    [(row, value)] pairs in iteration order. *)
Record Matrix : Type := {
  rows : Z;
  cols : Z;
  outer : list (list (Z * float))
}.

(** What the sparse-matrix library guarantees of a block. *)
Definition Matrix_wf (block : Matrix) : Prop :=
  0 <= rows block /\ 0 <= cols block /\
  Z.of_nat (length (outer block)) = cols block /\
  Forall (Forall (fun e : Z * float => 0 <= e.1 < rows block)) (outer block).

(** The structurally non-zero entries [(value, row, column)] of a block,
    outer index by outer index. *)
Fixpoint entries_from (k : Z) (columns : list (list (Z * float)))
  : list (float * Z * Z) :=
  match columns with
  | [] => []
  | column :: rest =>
      map (fun e : Z * float => (e.2, e.1, k)) column ++ entries_from (k + 1) rest
  end.

Definition nonzeros (block : Matrix) : list (float * Z * Z) :=
  entries_from 0 (outer block).

(** Modelled from the spec: [ProblemData] (declared in [ProblemData.hpp])
    is Coordinate Data, three ordered sequences of values, row indices and
    column indices. *)
Record ProblemData : Type := {
  V : list float;
  I : list Z;
  J : list Z
}.

(** A default-constructed [ProblemData]. *)
Definition empty_ProblemData : ProblemData := {| V := []; I := []; J := [] |}.

(* ===================================================================== *)
(** ** add_matrix_to_vectors *)
(* ===================================================================== *)

(** The inner loop [for (InnerIterator it(block, k); it; ++it)]. *)
Definition add_column (k vert_offset horiz_offset : Z)
    (column : list (Z * float)) (acc : list float * list Z * list Z)
  : list float * list Z * list Z :=
  foldl (fun '(V, I, J) '(row, value) =>
           (V ++ [value],
            I ++ [int_add row vert_offset],
            J ++ [int_add k horiz_offset]))
        acc column.

(** The outer loop [for (int k = 0; k < block.outerSize(); ++k)], from
    outer index [k] on. *)
Fixpoint add_columns (k vert_offset horiz_offset : Z)
    (columns : list (list (Z * float))) (acc : list float * list Z * list Z)
  : list float * list Z * list Z :=
  match columns with
  | [] => acc
  | column :: rest =>
      add_columns (k + 1) vert_offset horiz_offset rest
        (add_column k vert_offset horiz_offset column acc)
  end.

Definition add_matrix_to_vectors (block : Matrix)
    (V : list float) (I J : list Z) (vert_offset horiz_offset : Z)
  : list float * list Z * list Z :=
  add_columns 0 vert_offset horiz_offset (outer block) (V, I, J).

(* ===================================================================== *)
(** ** extend_constant_vec *)
(* ===================================================================== *)

(** [const_vec[idx] += value].  [std::vector::operator[]] does not check
    its index: an index outside the vector has no defined result, which is
    [None] here. *)
Definition add_at (const_vec : list float) (idx : Z) (value : float)
  : option (list float) :=
  if decide (0 <= idx < Z.of_nat (length const_vec))
  then Some (alter (fun x => PrimFloat.add x value) (Z.to_nat idx) const_vec)
  else None.

(** [int idx = vert_offset + (it.col() * rows) + it.row()]. *)
Definition flat_index (vert_offset rows col row : Z) : Z :=
  int_add (int_add vert_offset (int_mul col rows)) row.

Definition extend_column (rows k vert_offset : Z)
    (column : list (Z * float)) (acc : option (list float))
  : option (list float) :=
  foldl (fun acc '(row, value) =>
           const_vec ← acc;
           add_at const_vec (flat_index vert_offset rows k row) value)
        acc column.

Fixpoint extend_columns (rows k vert_offset : Z)
    (columns : list (list (Z * float))) (acc : option (list float))
  : option (list float) :=
  match columns with
  | [] => acc
  | column :: rest =>
      extend_columns rows (k + 1) vert_offset rest
        (extend_column rows k vert_offset column acc)
  end.

Definition extend_constant_vec (const_vec : list float) (vert_offset : Z)
    (block : Matrix) : option (list float) :=
  let rows := rows block in
  extend_columns rows 0 vert_offset (outer block) (Some const_vec).

(* ===================================================================== *)
(** ** The external collaborators *)
(* ===================================================================== *)

(** The evaluator's result types, [DictMat] and [Tensor] of [Utils.hpp]:
    [std::map<int, std::vector<Matrix>>] and [std::map<int, DictMat>].
    The assembly only iterates over them. *)
Definition DictMat : Type := list (Z * list Matrix).
Definition Tensor : Type := list (Z * DictMat).

(** Modelled from the spec: the operator-tree node [LinOp] with its
    attribute [size] (declared in [LinOp.hpp]), the evaluator
    [lin_to_tensor] (declared in [LinOpOperations.hpp]) and the reserved
    variable id [CONSTANT_ID] (declared in [Utils.hpp]) are not part of the
    sources at hand; the assembly is parametric in them. *)
Class Collaborators : Type := {
  LinOp : Type;
  size : LinOp -> list Z;
  lin_to_tensor : LinOp -> Z -> Tensor;
  CONSTANT_ID : Z
}.

(** Modelled from the spec: [vecprod] (declared in [Utils.hpp]) is the
    flattened size of a shape, the product of its dimensions, 1 for the
    shape without dimensions; as an [int] computation. *)
Definition vecprod (dims : list Z) : Z :=
  foldl (fun s v => int_mul s v) 1 dims.

(* ===================================================================== *)
(** ** process_constraint *)
(* ===================================================================== *)

(** [m[key]] on a [std::map<int, int>] taken by reference: the mapped
    value, and the map itself, in which a missing key has been inserted
    with the value-initialised [int] 0. *)
Definition map_index (m : gmap Z Z) (key : Z) : Z * gmap Z Z :=
  match m !! key with
  | Some v => (v, m)
  | None => (0, <[key := 0]> m)
  end.

(** One iteration of the innermost loop of [process_constraint], as seen
    at the end of its body: [bc_pushed] is the copy of [probBlock] that
    [probVec.push_back] stored, [bc_probBlock] is the local [probBlock]
    after [add_matrix_to_vectors] has run on it.  Both live in automatic
    storage and are gone when the function returns. *)
Record BlockCall : Type := {
  bc_param : Z;
  bc_var : Z;
  bc_index : nat;
  bc_block : Matrix;
  bc_vert : Z;
  bc_horiz : Z;
  bc_pushed : ProblemData;
  bc_probBlock : ProblemData
}.

Section Assembly.
Context `{Collaborators}.

(** The body of [for (unsigned i = 0; i < blocks.size(); i++)], from
    index [i] on.  The state is the column map (a reference parameter),
    the local [probVec] and the record of the iterations so far. *)
Fixpoint process_blocks (vert_offset var_length param_id var_id : Z)
    (i : nat) (blocks : list Matrix)
    (st : gmap Z Z * list ProblemData * list BlockCall)
  : gmap Z Z * list ProblemData * list BlockCall :=
  match blocks with
  | [] => st
  | block :: rest =>
      let '(id_to_col, probVec, calls) := st in
      let '(horiz_offset, id_to_col) :=
        if decide (var_id = CONSTANT_ID)
        then (var_length, id_to_col)
        else map_index id_to_col var_id in
      let probBlock := empty_ProblemData in
      let probVec := probVec ++ [probBlock] in
      let '(V', I', J') :=
        add_matrix_to_vectors block (V probBlock) (I probBlock) (J probBlock)
                              vert_offset horiz_offset in
      let filled := {| V := V'; I := I'; J := J' |} in
      process_blocks vert_offset var_length param_id var_id (S i) rest
        (id_to_col, probVec,
         calls ++ [ {| bc_param := param_id; bc_var := var_id; bc_index := i;
                       bc_block := block; bc_vert := vert_offset;
                       bc_horiz := horiz_offset;
                       bc_pushed := probBlock; bc_probBlock := filled |} ])
  end.

(** The loop over [var_map]. *)
Definition process_vars (vert_offset var_length param_id : Z)
    (var_map : DictMat) (st : gmap Z Z * list ProblemData * list BlockCall)
  : gmap Z Z * list ProblemData * list BlockCall :=
  foldl (fun st '(var_id, blocks) =>
           process_blocks vert_offset var_length param_id var_id 0 blocks st)
        st var_map.

(** The loop over [coeffs].  The state is the tensor and the column map
    (both reference parameters) and the record of the iterations. *)
Definition process_params (vert_offset var_length : Z) (coeffs : Tensor)
    (st : gmap Z (list ProblemData) * gmap Z Z * list BlockCall)
  : gmap Z (list ProblemData) * gmap Z Z * list BlockCall :=
  foldl (fun st '(param_id, var_map) =>
           let '(problemData, id_to_col, calls) := st in
           let probVec : list ProblemData := [] in
           let problemData := <[param_id := probVec]> problemData in
           let '(id_to_col, probVec, calls) :=
             process_vars vert_offset var_length param_id var_map
                          (id_to_col, probVec, calls) in
           (problemData, id_to_col, calls))
        st coeffs.

Definition process_constraint (lin : LinOp)
    (problemData : gmap Z (list ProblemData))
    (vert_offset var_length : Z) (id_to_col : gmap Z Z)
  : gmap Z (list ProblemData) * gmap Z Z * list BlockCall :=
  let coeffs := lin_to_tensor lin 0 in
  process_params vert_offset var_length coeffs (problemData, id_to_col, []).

(* =================================================================== *)
(** ** get_total_constraint_length *)
(* =================================================================== *)

Definition get_total_constraint_length (constraints : list LinOp) : Z :=
  foldl (fun result constr => int_add result (vecprod (size constr)))
        0 constraints.

(** The loop of the explicit-offset overload, entered once the two
    lengths are known to agree; [offset_end] is its value before the
    iteration. *)
Fixpoint check_offsets (constraints : list LinOp) (constr_offsets : list Z)
    (offset_end : Z) : result Z :=
  match constraints, constr_offsets with
  | constr :: constraints', offset_start :: constr_offsets' =>
      let offset_end := int_add offset_start (vecprod (size constr)) in
      match constr_offsets' with
      | next :: _ =>
          if decide (next < offset_end) then Fail NotMonotone
          else check_offsets constraints' constr_offsets' offset_end
      | [] => check_offsets constraints' constr_offsets' offset_end
      end
  | _, _ => Ok offset_end
  end.

Definition get_total_constraint_length_offsets
    (constraints : list LinOp) (constr_offsets : list Z) : result Z :=
  if decide (length constraints ≠ length constr_offsets)
  then Fail LengthMismatch
  else check_offsets constraints constr_offsets 0.

(* =================================================================== *)
(** ** init_data_tensor *)
(* =================================================================== *)

(** [std::vector<ProblemData> data_block(param_size)]: [param_size]
    default-constructed records; a negative [int] converts to a count
    beyond [max_size()] and the constructor throws. *)
Definition data_block (param_size : Z) : result (list ProblemData) :=
  if decide (param_size < 0) then Fail BadVectorSize
  else Ok (replicate (Z.to_nat param_size) empty_ProblemData).

Definition init_data_tensor (param_to_size : gmap Z Z)
  : result (gmap Z (list ProblemData)) :=
  map_fold (fun param_id param_size (acc : result (gmap Z (list ProblemData))) =>
              output ← acc;
              block ← data_block param_size;
              Ok (<[param_id := block]> output))
           (Ok ∅) param_to_size.

(* =================================================================== *)
(** ** build_matrix *)
(* =================================================================== *)

(** The loop of the automatic-offset overload. *)
Fixpoint build_sequential (constraints : list LinOp) (var_length : Z)
    (vert_offset : Z)
    (st : gmap Z (list ProblemData) * gmap Z Z * list BlockCall)
  : gmap Z (list ProblemData) * gmap Z Z * list BlockCall :=
  match constraints with
  | [] => st
  | constr :: rest =>
      let '(prob_data, id_to_col, calls) := st in
      let '(prob_data, id_to_col, calls') :=
        process_constraint constr prob_data vert_offset var_length id_to_col in
      build_sequential rest var_length
        (int_add vert_offset (vecprod (size constr)))
        (prob_data, id_to_col, calls ++ calls')
  end.

(** The automatic-offset overload with the final values of its locals:
    the tensor it returns, its own copy of the column map, and the
    record of every innermost iteration. *)
Definition build_matrix_run (constraints : list LinOp) (var_length : Z)
    (id_to_col : gmap Z Z) (param_to_size : gmap Z Z)
  : result (gmap Z (list ProblemData) * gmap Z Z * list BlockCall) :=
  prob_data ← init_data_tensor param_to_size;
  let num_rows := get_total_constraint_length constraints in
  let vert_offset := 0 in
  Ok (build_sequential constraints var_length vert_offset
                       (prob_data, id_to_col, [])).

Definition build_matrix (constraints : list LinOp) (var_length : Z)
    (id_to_col : gmap Z Z) (param_to_size : gmap Z Z)
  : result (gmap Z (list ProblemData)) :=
  st ← build_matrix_run constraints var_length id_to_col param_to_size;
  Ok st.1.1.

(** The loop of the explicit-offset overload; it runs after the offsets
    were validated, so the two lists have the same length. *)
Fixpoint build_explicit (constraints : list LinOp) (var_length : Z)
    (constr_offsets : list Z)
    (st : gmap Z (list ProblemData) * gmap Z Z * list BlockCall)
  : gmap Z (list ProblemData) * gmap Z Z * list BlockCall :=
  match constraints, constr_offsets with
  | constr :: rest, vert_offset :: constr_offsets' =>
      let '(prob_data, id_to_col, calls) := st in
      let '(prob_data, id_to_col, calls') :=
        process_constraint constr prob_data vert_offset var_length id_to_col in
      build_explicit rest var_length constr_offsets'
        (prob_data, id_to_col, calls ++ calls')
  | _, _ => st
  end.

Definition build_matrix_offsets_run (constraints : list LinOp)
    (var_length : Z) (id_to_col : gmap Z Z) (param_to_size : gmap Z Z)
    (constr_offsets : list Z)
  : result (gmap Z (list ProblemData) * gmap Z Z * list BlockCall) :=
  prob_data ← init_data_tensor param_to_size;
  num_rows ← get_total_constraint_length_offsets constraints constr_offsets;
  Ok (build_explicit constraints var_length constr_offsets
                     (prob_data, id_to_col, [])).

Definition build_matrix_offsets (constraints : list LinOp) (var_length : Z)
    (id_to_col : gmap Z Z) (param_to_size : gmap Z Z)
    (constr_offsets : list Z)
  : result (gmap Z (list ProblemData)) :=
  st ← build_matrix_offsets_run constraints var_length id_to_col
                                param_to_size constr_offsets;
  Ok st.1.1.

(** The offsets the automatic-offset overload gives to the constraints,
    starting from [vert_offset]. *)
Fixpoint running_offsets (vert_offset : Z) (constraints : list LinOp)
  : list Z :=
  match constraints with
  | [] => []
  | constr :: rest =>
      vert_offset
        :: running_offsets (int_add vert_offset (vecprod (size constr))) rest
  end.

End Assembly.

(* ===================================================================== *)
(** ** Vocabulary of the properties *)
(* ===================================================================== *)

(** The exact (unbounded) sum of the flattened sizes, in list order. *)
Definition flattened_sum `{Collaborators} (constraints : list LinOp) : Z :=
  foldl (fun acc constr => acc + vecprod (size constr)) 0 constraints.

(** The exact product of the dimensions of a shape. *)
Definition dims_product (dims : list Z) : Z := foldl Z.mul 1 dims.

(** The blocks the evaluator returned, [(parameter id, variable id, entry
    index, block)], in the order [process_constraint] walks them. *)
Fixpoint indexed_blocks (param_id var_id : Z) (i : nat) (blocks : list Matrix)
  : list (Z * Z * nat * Matrix) :=
  match blocks with
  | [] => []
  | block :: rest =>
      (param_id, var_id, i, block) :: indexed_blocks param_id var_id (S i) rest
  end.

Definition dictmat_blocks (param_id : Z) (var_map : DictMat)
  : list (Z * Z * nat * Matrix) :=
  concat (map (fun vb : Z * list Matrix => indexed_blocks param_id vb.1 0 vb.2)
              var_map).

Definition tensor_blocks (coeffs : Tensor) : list (Z * Z * nat * Matrix) :=
  concat (map (fun pv : Z * DictMat => dictmat_blocks pv.1 pv.2) coeffs).

Definition call_key (c : BlockCall) : Z * Z * nat * Matrix :=
  (bc_param c, bc_var c, bc_index c, bc_block c).

(** The parameter ids that occur in the evaluator's result for some
    constraint of the list. *)
Definition touched_params `{Collaborators} (constraints : list LinOp) : list Z :=
  concat (map (fun constr => map fst (lin_to_tensor constr 0)) constraints).

(** Some constraint starts before its predecessor ends. *)
Definition overlapping `{Collaborators} (constraints : list LinOp)
    (constr_offsets : list Z) : Prop :=
  exists (i : nat) (constr : LinOp) (offset next : Z),
    constraints !! i = Some constr /\
    constr_offsets !! i = Some offset /\
    constr_offsets !! S i = Some next /\
    next < int_add offset (vecprod (size constr)).

(** Some constraint starts strictly after its predecessor ends. *)
Definition gapped `{Collaborators} (constraints : list LinOp)
    (constr_offsets : list Z) : Prop :=
  exists (i : nat) (constr : LinOp) (offset next : Z),
    constraints !! i = Some constr /\
    constr_offsets !! i = Some offset /\
    constr_offsets !! S i = Some next /\
    int_add offset (vecprod (size constr)) < next.

(** The values that the entries [es] of a block with [rows] rows add to
    position [p] of the dense vector, in iteration order. *)
Definition contributions_of (rows vert_offset : Z) (p : nat)
    (es : list (float * Z * Z)) : list float :=
  map (fun e : float * Z * Z => e.1.1)
      (filter (fun e : float * Z * Z =>
                 flat_index vert_offset rows e.2 e.1.2 = Z.of_nat p) es).

Definition contributions (vert_offset : Z) (block : Matrix) (p : nat)
  : list float :=
  contributions_of (rows block) vert_offset p (nonzeros block).

(** Every entry of [es] lands inside a dense vector of length [n]. *)
Definition in_bounds (rows vert_offset : Z) (n : nat)
    (es : list (float * Z * Z)) : Prop :=
  Forall (fun e : float * Z * Z =>
            0 <= flat_index vert_offset rows e.2 e.1.2 < Z.of_nat n) es.

(** The column map after some default insertions of [operator[]]: every
    old entry is kept, every new key is mapped to 0. *)
Definition map_grows (m m' : gmap Z Z) : Prop :=
  m ⊆ m' /\ forall (k v : Z), m' !! k = Some v -> m !! k = None -> v = 0.

(** What one innermost iteration of [process_constraint] did, given the
    column map [id_to_col] as it is after the iteration (or later). *)
Definition call_ok `{Collaborators} (var_length : Z) (id_to_col : gmap Z Z)
    (c : BlockCall) : Prop :=
  bc_pushed c = empty_ProblemData /\
  bc_probBlock c
  = {| V := map (fun e : float * Z * Z => e.1.1) (nonzeros (bc_block c));
       I := map (fun e : float * Z * Z => int_add e.1.2 (bc_vert c))
                (nonzeros (bc_block c));
       J := map (fun e : float * Z * Z => int_add e.2 (bc_horiz c))
                (nonzeros (bc_block c)) |} /\
  (if decide (bc_var c = CONSTANT_ID)
   then bc_horiz c = var_length
   else id_to_col !! bc_var c = Some (bc_horiz c)).

(** The variable ids [process_constraint] looks up in the column map while
    it walks the evaluator's result: one per block, [CONSTANT_ID] apart. *)
Definition looked_up_vars `{Collaborators} (coeffs : Tensor) : list Z :=
  filter (fun w : Z => w <> CONSTANT_ID)
         (map (fun k : Z * Z * nat * Matrix => k.1.1.2) (tensor_blocks coeffs)).

(** The column map after [operator[]] was applied to each of [vars] in
    turn. *)
Definition default_columns (m : gmap Z Z) (vars : list Z) : gmap Z Z :=
  foldl (fun m w => (map_index m w).2) m vars.

(* ===================================================================== *)
(** ** Concrete inputs *)
(* ===================================================================== *)

(** A 1 x 1 block holding [value]. *)
Definition scalar_block (value : float) : Matrix :=
  {| rows := 1; cols := 1; outer := [[(0, value)]] |}.

(** A 3 x 2 block with entries at (0,0), (2,0) and (1,1). *)
Definition block_3x2 : Matrix :=
  {| rows := 3; cols := 2;
     outer := [[(0, 1.5%float); (2, 4%float)]; [(1, (-2)%float)]] |}.

(** Collaborators for the examples: a node carries its shape and the
    tensor the evaluator returns for it, and the reserved id is -1. *)
Definition demo : Collaborators :=
  {| LinOp := list Z * Tensor;
     size := fst;
     lin_to_tensor := fun lin _ => lin.2;
     CONSTANT_ID := -1 |}.

(** A 2 x 1 block holding [value] in row [row]. *)
Definition column_block (row : Z) (value : float) : Matrix :=
  {| rows := 2; cols := 1; outer := [[(row, value)]] |}.

(** The 2 x 2 block with [value] on the diagonal. *)
Definition diagonal_block (value : float) : Matrix :=
  {| rows := 2; cols := 2; outer := [[(0, value)]; [(1, value)]] |}.

(** A constraint of shape (2,1) that is affine in parameter 7, which has
    two entries: through the constant term, through variable 3 and through
    variable 5, with one block per parameter entry each. *)
Definition demo_constraint : @LinOp demo :=
  ([2; 1],
   [(7, [(-1, [column_block 0 1%float; column_block 1 1%float]);
         (3, [diagonal_block 2%float; diagonal_block 3%float]);
         (5, [diagonal_block 1%float; diagonal_block 1%float])])]).

(** A constraint of shape (3,1) without parameters. *)
Definition plain_constraint : @LinOp demo := ([3; 1], []).

Definition demo_constraints : list (@LinOp demo) :=
  [demo_constraint; plain_constraint].

(** Variable 3 starts at column 4; variable 5 is not declared. *)
Definition demo_columns : gmap Z Z := {[ 3 := 4 ]}.

(** Parameter 7 has two entries, parameter 9 has three. *)
Definition demo_sizes : gmap Z Z := {[ 7 := 2; 9 := 3 ]}.

(** A dense vector of eight zeros. *)
Definition zeros8 : list float := replicate 8 0%float.

(** The tensor [init_data_tensor] makes for [demo_sizes]. *)
Definition demo_tensor : gmap Z (list ProblemData) :=
  {[ 7 := replicate 2 empty_ProblemData; 9 := replicate 3 empty_ProblemData ]}.


(* ===================================================================== *)
(** ** Properties *)
(* ===================================================================== *)

(** *** Machine integers *)

Lemma int_wrap_range x : int_range (int_wrap x).
Proof.
  unfold int_range, int_wrap, INT_MIN, INT_MAX.
  pose proof (Z.mod_pos_bound (x + 2 ^ 31) (2 ^ 32)). lia.
Qed.

Lemma int_wrap_id x : int_range x -> int_wrap x = x.
Proof.
  unfold int_range, int_wrap, INT_MIN, INT_MAX. intros Hx.
  rewrite Z.mod_small by lia. lia.
Qed.

Lemma int_wrap_add_l a b : int_wrap (int_wrap a + b) = int_wrap (a + b).
Proof.
  unfold int_wrap. f_equal.
  replace ((a + 2 ^ 31) mod 2 ^ 32 - 2 ^ 31 + b + 2 ^ 31)
    with ((a + 2 ^ 31) mod 2 ^ 32 + b) by lia.
  rewrite Zplus_mod_idemp_l. f_equal. lia.
Qed.

Lemma int_wrap_add_r a b : int_wrap (a + int_wrap b) = int_wrap (a + b).
Proof. rewrite (Z.add_comm a), int_wrap_add_l. f_equal. lia. Qed.

Lemma int_wrap_mul_l a b : int_wrap (int_wrap a * b) = int_wrap (a * b).
Proof.
  unfold int_wrap. f_equal.
  replace (((a + 2 ^ 31) mod 2 ^ 32 - 2 ^ 31) * b + 2 ^ 31)
    with ((a + 2 ^ 31) mod 2 ^ 32 * b + (2 ^ 31 - 2 ^ 31 * b)) by lia.
  rewrite <- Zplus_mod_idemp_l, Zmult_mod_idemp_l, Zplus_mod_idemp_l.
  f_equal. lia.
Qed.

Lemma int_add_exact a b : int_range (a + b) -> int_add a b = a + b.
Proof. apply int_wrap_id. Qed.

Lemma flat_index_wrap vert_offset rows col row :
  flat_index vert_offset rows col row
  = int_wrap (vert_offset + col * rows + row).
Proof.
  unfold flat_index, int_add, int_mul.
  rewrite int_wrap_add_l, <- Z.add_assoc, (Z.add_comm (int_wrap _)).
  rewrite Z.add_assoc, int_wrap_add_r. f_equal. lia.
Qed.

Lemma flat_index_exact vert_offset rows col row :
  int_range (vert_offset + col * rows + row) ->
  flat_index vert_offset rows col row = vert_offset + col * rows + row.
Proof. intros. rewrite flat_index_wrap. by apply int_wrap_id. Qed.

Lemma dims_product_wrap_congr dims : forall a b,
  int_wrap a = int_wrap b ->
  int_wrap (foldl Z.mul a dims) = int_wrap (foldl Z.mul b dims).
Proof.
  induction dims as [|d dims IH]; intros a b Hab; simpl; [done|].
  apply IH. by rewrite <- int_wrap_mul_l, Hab, int_wrap_mul_l.
Qed.

Lemma vecprod_from dims : forall s,
  int_range s ->
  foldl (fun s v => int_mul s v) s dims = int_wrap (foldl Z.mul s dims).
Proof.
  induction dims as [|d dims IH]; intros s Hs; simpl.
  - by rewrite int_wrap_id.
  - rewrite IH by apply int_wrap_range.
    apply dims_product_wrap_congr. unfold int_mul.
    apply int_wrap_id, int_wrap_range.
Qed.

Lemma vecprod_wrap dims : vecprod dims = int_wrap (dims_product dims).
Proof. apply vecprod_from. unfold int_range, INT_MIN, INT_MAX. lia. Qed.

Lemma vecprod_range dims : int_range (vecprod dims).
Proof. rewrite vecprod_wrap. apply int_wrap_range. Qed.

(** *** The triplet accumulator *)

Lemma add_column_spec k vert_offset horiz_offset column : forall V0 I0 J0,
  add_column k vert_offset horiz_offset column (V0, I0, J0)
  = (V0 ++ map snd column,
     I0 ++ map (fun e : Z * float => int_add e.1 vert_offset) column,
     J0 ++ map (fun _ : Z * float => int_add k horiz_offset) column).
Proof.
  unfold add_column.
  induction column as [|[row value] column IH]; intros V0 I0 J0; simpl.
  - by rewrite !app_nil_r.
  - rewrite IH, <- !app_assoc. reflexivity.
Qed.

Lemma add_columns_spec vert_offset horiz_offset columns : forall k V0 I0 J0,
  add_columns k vert_offset horiz_offset columns (V0, I0, J0)
  = (V0 ++ map (fun e : float * Z * Z => e.1.1) (entries_from k columns),
     I0 ++ map (fun e : float * Z * Z => int_add e.1.2 vert_offset)
               (entries_from k columns),
     J0 ++ map (fun e : float * Z * Z => int_add e.2 horiz_offset)
               (entries_from k columns)).
Proof.
  induction columns as [|column columns IH]; intros k V0 I0 J0; simpl.
  - by rewrite !app_nil_r.
  - rewrite add_column_spec, IH, <- !app_assoc, !map_app, !map_map.
    reflexivity.
Qed.

Lemma add_matrix_to_vectors_spec block V0 I0 J0 vert_offset horiz_offset :
  add_matrix_to_vectors block V0 I0 J0 vert_offset horiz_offset
  = (V0 ++ map (fun e : float * Z * Z => e.1.1) (nonzeros block),
     I0 ++ map (fun e : float * Z * Z => int_add e.1.2 vert_offset)
               (nonzeros block),
     J0 ++ map (fun e : float * Z * Z => int_add e.2 horiz_offset)
               (nonzeros block)).
Proof. apply add_columns_spec. Qed.

Lemma entries_from_cols columns : forall k,
  Forall (fun e : float * Z * Z => k <= e.2 < k + Z.of_nat (length columns))
         (entries_from k columns).
Proof.
  induction columns as [|column columns IH]; intros k; simpl; [constructor|].
  apply Forall_app. split.
  - apply Forall_map, Forall_forall. intros e _. simpl. lia.
  - eapply Forall_impl; [apply IH|]. intros e He. simpl in He. lia.
Qed.

Lemma nonzeros_cols block :
  Matrix_wf block ->
  Forall (fun e : float * Z * Z => 0 <= e.2 < cols block) (nonzeros block).
Proof.
  intros (_ & _ & Hlen & _).
  eapply Forall_impl; [apply entries_from_cols|]. intros e He. simpl in He. lia.
Qed.

Lemma entries_from_rows r columns : forall k,
  Forall (Forall (fun e : Z * float => 0 <= e.1 < r)) columns ->
  Forall (fun e : float * Z * Z => 0 <= e.1.2 < r) (entries_from k columns).
Proof.
  induction columns as [|column columns IH]; intros k Hall; simpl; [constructor|].
  inversion Hall as [|? ? Hcol Hrest]; subst.
  apply Forall_app. split; [|by apply IH].
  apply Forall_map. eapply Forall_impl; [exact Hcol|]. by intros [row value].
Qed.

Lemma nonzeros_rows block :
  Matrix_wf block ->
  Forall (fun e : float * Z * Z => 0 <= e.1.2 < rows block) (nonzeros block).
Proof. intros (_ & _ & _ & Hrows). by apply entries_from_rows. Qed.

(** C7. [add_matrix_to_vectors] appends to [V], [I] and [J] one triplet
    [(value, row + vert_offset, col + horiz_offset)] for each structurally
    non-zero entry of the block, each entry once and in iteration order,
    after the elements the three sequences already hold, which stay as
    they are; the sums are [int] sums, the exact ones where they fit an
    [int].  Nothing is merged: running it for a second block, be it the
    same one, on the same sequences appends that block's triplets after
    the first one's. *)
Theorem add_matrix_to_vectors_appends
    (block : Matrix) (V0 : list float) (I0 J0 : list Z)
    (vert_offset horiz_offset : Z) :
  add_matrix_to_vectors block V0 I0 J0 vert_offset horiz_offset
  = (V0 ++ map (fun e : float * Z * Z => e.1.1) (nonzeros block),
     I0 ++ map (fun e : float * Z * Z => int_add e.1.2 vert_offset)
               (nonzeros block),
     J0 ++ map (fun e : float * Z * Z => int_add e.2 horiz_offset)
               (nonzeros block))
  /\ (Forall (fun e : float * Z * Z =>
                int_range (e.1.2 + vert_offset) /\
                int_range (e.2 + horiz_offset)) (nonzeros block) ->
      add_matrix_to_vectors block V0 I0 J0 vert_offset horiz_offset
      = (V0 ++ map (fun e : float * Z * Z => e.1.1) (nonzeros block),
         I0 ++ map (fun e : float * Z * Z => e.1.2 + vert_offset)
                   (nonzeros block),
         J0 ++ map (fun e : float * Z * Z => e.2 + horiz_offset)
                   (nonzeros block)))
  /\ (forall (block' : Matrix) (vert_offset' horiz_offset' : Z),
        let '(V1, I1, J1) :=
          add_matrix_to_vectors block V0 I0 J0 vert_offset horiz_offset in
        add_matrix_to_vectors block' V1 I1 J1 vert_offset' horiz_offset'
        = (V0 ++ map (fun e : float * Z * Z => e.1.1)
                     (nonzeros block ++ nonzeros block'),
           I0 ++ map (fun e : float * Z * Z => int_add e.1.2 vert_offset)
                     (nonzeros block)
              ++ map (fun e : float * Z * Z => int_add e.1.2 vert_offset')
                     (nonzeros block'),
           J0 ++ map (fun e : float * Z * Z => int_add e.2 horiz_offset)
                     (nonzeros block)
              ++ map (fun e : float * Z * Z => int_add e.2 horiz_offset')
                     (nonzeros block'))).
Proof.
  split; [apply add_matrix_to_vectors_spec|]. split.
  - intros Hfit. rewrite add_matrix_to_vectors_spec.
    f_equal; [f_equal|]; f_equal; apply map_ext_Forall;
      (eapply Forall_impl; [exact Hfit|]); intros e [Hr Hc]; simpl;
      by apply int_add_exact.
  - intros block' vert_offset' horiz_offset'.
    rewrite add_matrix_to_vectors_spec.
    rewrite add_matrix_to_vectors_spec, map_app, <- !app_assoc. reflexivity.
Qed.

(** *** The dense constant extender *)

Lemma contributions_of_nil rows vert_offset p :
  contributions_of rows vert_offset p [] = [].
Proof. reflexivity. Qed.

Lemma contributions_of_hit rows vert_offset p e es :
  flat_index vert_offset rows e.2 e.1.2 = Z.of_nat p ->
  contributions_of rows vert_offset p (e :: es)
  = e.1.1 :: contributions_of rows vert_offset p es.
Proof.
  intros Hhit. unfold contributions_of. by rewrite filter_cons_True.
Qed.

Lemma contributions_of_miss rows vert_offset p e es :
  flat_index vert_offset rows e.2 e.1.2 <> Z.of_nat p ->
  contributions_of rows vert_offset p (e :: es)
  = contributions_of rows vert_offset p es.
Proof.
  intros Hmiss. unfold contributions_of. by rewrite filter_cons_False.
Qed.

Lemma contributions_of_app rows vert_offset p es es' :
  contributions_of rows vert_offset p (es ++ es')
  = contributions_of rows vert_offset p es
    ++ contributions_of rows vert_offset p es'.
Proof. unfold contributions_of. by rewrite filter_app, map_app. Qed.

Lemma add_at_Some const_vec idx value vec' :
  add_at const_vec idx value = Some vec' ->
  0 <= idx < Z.of_nat (length const_vec) /\
  length vec' = length const_vec /\
  forall p : nat,
    vec' !! p = (if decide (idx = Z.of_nat p)
                 then (fun x => PrimFloat.add x value) <$> const_vec !! p
                 else const_vec !! p).
Proof.
  unfold add_at. case_decide as Hidx; [|done].
  intros [= <-]. split; [done|]. split; [apply length_alter|].
  intros p. case_decide as Hp.
  - subst idx. rewrite Nat2Z.id. apply list_lookup_alter_eq.
  - apply list_lookup_alter_ne. lia.
Qed.

Lemma extend_column_None rows k vert_offset column :
  extend_column rows k vert_offset column None = None.
Proof.
  unfold extend_column. induction column as [|[row value] column IH]; done.
Qed.

Lemma extend_columns_None rows vert_offset columns : forall k,
  extend_columns rows k vert_offset columns None = None.
Proof.
  induction columns as [|column columns IH]; intros k; simpl; [done|].
  by rewrite extend_column_None.
Qed.

Lemma extend_column_Some rows k vert_offset column : forall const_vec vec',
  extend_column rows k vert_offset column (Some const_vec) = Some vec' ->
  length vec' = length const_vec /\
  in_bounds rows vert_offset (length const_vec)
            (map (fun e : Z * float => (e.2, e.1, k)) column) /\
  forall p : nat,
    vec' !! p
    = (fun x => foldl PrimFloat.add x
                  (contributions_of rows vert_offset p
                     (map (fun e : Z * float => (e.2, e.1, k)) column)))
      <$> const_vec !! p.
Proof.
  induction column as [|[row value] column IH]; intros const_vec vec' Hrun.
  - injection Hrun as <-. split; [done|]. split; [constructor|].
    intros p. simpl. by destruct (const_vec !! p).
  - change (extend_column rows k vert_offset column
              (add_at const_vec (flat_index vert_offset rows k row) value)
            = Some vec') in Hrun.
    destruct (add_at const_vec (flat_index vert_offset rows k row) value)
      as [vec1|] eqn:Hstep; [|by rewrite extend_column_None in Hrun].
    apply add_at_Some in Hstep as (Hidx & Hlen1 & Hlook1).
    apply IH in Hrun as (Hlen & Hin & Hlook).
    split; [congruence|]. split.
    { rewrite Hlen1 in Hin. by constructor. }
    intros p. rewrite Hlook, Hlook1. rewrite map_cons.
    case_decide as Hp.
    + rewrite contributions_of_hit by done. simpl.
      by destruct (const_vec !! p).
    + by rewrite contributions_of_miss by done.
Qed.

Lemma extend_columns_Some rows vert_offset columns : forall k const_vec vec',
  extend_columns rows k vert_offset columns (Some const_vec) = Some vec' ->
  length vec' = length const_vec /\
  in_bounds rows vert_offset (length const_vec) (entries_from k columns) /\
  forall p : nat,
    vec' !! p
    = (fun x => foldl PrimFloat.add x
                  (contributions_of rows vert_offset p (entries_from k columns)))
      <$> const_vec !! p.
Proof.
  induction columns as [|column columns IH]; intros k const_vec vec' Hrun.
  - injection Hrun as <-. split; [done|]. split; [constructor|].
    intros p. simpl. by destruct (const_vec !! p).
  - simpl in Hrun.
    destruct (extend_column rows k vert_offset column (Some const_vec))
      as [vec1|] eqn:Hcol; [|by rewrite extend_columns_None in Hrun].
    apply extend_column_Some in Hcol as (Hlen1 & Hin1 & Hlook1).
    apply IH in Hrun as (Hlen & Hin & Hlook).
    split; [congruence|]. split.
    { simpl. apply Forall_app. split; [done|]. by rewrite <- Hlen1. }
    intros p. rewrite Hlook, Hlook1.
    destruct (const_vec !! p) as [x|]; simpl; [|done].
    by rewrite contributions_of_app, foldl_app.
Qed.

Lemma extend_column_total rows k vert_offset column : forall const_vec,
  in_bounds rows vert_offset (length const_vec)
            (map (fun e : Z * float => (e.2, e.1, k)) column) ->
  is_Some (extend_column rows k vert_offset column (Some const_vec)).
Proof.
  induction column as [|[row value] column IH]; intros const_vec Hin.
  - by eexists.
  - inversion Hin as [|? ? Hidx Hrest]; subst. simpl in Hidx.
    change (is_Some (extend_column rows k vert_offset column
              (add_at const_vec (flat_index vert_offset rows k row) value))).
    unfold add_at. rewrite decide_True by done.
    apply IH. unfold in_bounds. by rewrite length_alter.
Qed.

Lemma extend_columns_total rows vert_offset columns : forall k const_vec,
  in_bounds rows vert_offset (length const_vec) (entries_from k columns) ->
  is_Some (extend_columns rows k vert_offset columns (Some const_vec)).
Proof.
  induction columns as [|column columns IH]; intros k const_vec Hin; simpl.
  - by eexists.
  - simpl in Hin. apply Forall_app in Hin as [Hcol Hrest].
    destruct (extend_column_total rows k vert_offset column const_vec Hcol)
      as [vec1 Hvec1].
    rewrite Hvec1. apply IH.
    apply extend_column_Some in Hvec1 as (Hlen1 & _).
    unfold in_bounds. by rewrite Hlen1.
Qed.

Lemma extend_constant_vec_Some const_vec vert_offset block vec' :
  extend_constant_vec const_vec vert_offset block = Some vec' ->
  length vec' = length const_vec /\
  in_bounds (rows block) vert_offset (length const_vec) (nonzeros block) /\
  forall p : nat,
    vec' !! p = (fun x => foldl PrimFloat.add x
                            (contributions vert_offset block p))
                <$> const_vec !! p.
Proof. apply extend_columns_Some. Qed.

(** C8. [extend_constant_vec] adds the value of every structurally
    non-zero entry of the block to the element of the dense vector at
    [vert_offset + col * rows + row] (an [int] expression, the exact one
    where it fits an [int]): it returns whenever all those indices are
    inside the vector, and then each position holds its old value with the
    values of the entries that land on it added one after the other, so a
    position no entry lands on is unchanged and the length is kept.  Two
    blocks that each land exactly the value 3.0, respectively -1.0, on a
    position holding 0.0 leave 2.0 there. *)
Theorem extend_constant_vec_accumulates
    (const_vec : list float) (vert_offset : Z) (block : Matrix) :
  (in_bounds (rows block) vert_offset (length const_vec) (nonzeros block) ->
   is_Some (extend_constant_vec const_vec vert_offset block))
  /\ (forall vec' : list float,
        extend_constant_vec const_vec vert_offset block = Some vec' ->
        length vec' = length const_vec /\
        (forall p : nat,
           vec' !! p = (fun x => foldl PrimFloat.add x
                                   (contributions vert_offset block p))
                       <$> const_vec !! p) /\
        (forall p : nat,
           contributions vert_offset block p = [] ->
           vec' !! p = const_vec !! p))
  /\ (forall row col : Z,
        int_range (vert_offset + col * rows block + row) ->
        flat_index vert_offset (rows block) col row
        = vert_offset + col * rows block + row)
  /\ (forall (block' : Matrix) (vec1 vec2 : list float) (p : nat),
        contributions vert_offset block p = [3%float] ->
        contributions vert_offset block' p = [(-1)%float] ->
        const_vec !! p = Some 0%float ->
        extend_constant_vec const_vec vert_offset block = Some vec1 ->
        extend_constant_vec vec1 vert_offset block' = Some vec2 ->
        vec2 !! p = Some 2%float).
Proof.
  split.
  { intros Hin. by apply extend_columns_total. }
  split.
  { intros vec' Hrun.
    apply extend_constant_vec_Some in Hrun as (Hlen & _ & Hlook).
    split; [done|]. split; [done|].
    intros p Hnone. rewrite Hlook, Hnone. by destruct (const_vec !! p). }
  split.
  { intros row col Hfit. by apply flat_index_exact. }
  intros block' vec1 vec2 p Hthree Hminus Hzero Hrun1 Hrun2.
  apply extend_constant_vec_Some in Hrun1 as (_ & _ & Hlook1).
  apply extend_constant_vec_Some in Hrun2 as (_ & _ & Hlook2).
  rewrite Hlook2, Hlook1, Hzero, Hthree, Hminus. reflexivity.
Qed.

Lemma extend_constant_vec_accumulates_witness :
  exists vec1 vec2 : list float,
    extend_constant_vec [0%float; 0%float] 1 (scalar_block 3%float) = Some vec1 /\
    extend_constant_vec vec1 1 (scalar_block (-1)%float) = Some vec2 /\
    vec2 !! 1%nat = Some 2%float /\ vec2 !! 0%nat = Some 0%float.
Proof.
  destruct (extend_constant_vec_accumulates [0%float; 0%float] 1
              (scalar_block 3%float)) as (Htotal & Hacc & _ & Htwo).
  destruct Htotal as [vec1 Hvec1].
  { repeat constructor; vm_compute; congruence. }
  destruct (extend_constant_vec_accumulates vec1 1 (scalar_block (-1)%float))
    as (Htotal' & Hacc' & _).
  destruct (Hacc vec1 Hvec1) as (Hlen1 & _ & Hsame1).
  destruct Htotal' as [vec2 Hvec2].
  { rewrite Hlen1. repeat constructor; vm_compute; congruence. }
  destruct (Hacc' vec2 Hvec2) as (_ & _ & Hsame2).
  exists vec1, vec2. split; [done|]. split; [done|]. split.
  - apply (Htwo (scalar_block (-1)%float) vec1 vec2 1%nat);
      [reflexivity | reflexivity | reflexivity | done | done].
  - rewrite Hsame2 by reflexivity. rewrite Hsame1 by reflexivity. reflexivity.
Defined.

(** *** The offset calculator *)

Section OffsetCalculator.
Context `{Collaborators}.

Lemma flattened_sum_wrap_congr (constraints : list LinOp) : forall a b,
  int_wrap a = int_wrap b ->
  int_wrap (foldl (fun acc constr => acc + vecprod (size constr)) a constraints)
  = int_wrap (foldl (fun acc constr => acc + vecprod (size constr)) b constraints).
Proof.
  induction constraints as [|c cs IH]; intros a b Hab; simpl; [done|].
  apply IH. by rewrite <- int_wrap_add_l, Hab, int_wrap_add_l.
Qed.

Lemma total_length_from (constraints : list LinOp) : forall a,
  int_range a ->
  foldl (fun result constr => int_add result (vecprod (size constr)))
        a constraints
  = int_wrap (foldl (fun acc constr => acc + vecprod (size constr))
                    a constraints).
Proof.
  induction constraints as [|c cs IH]; intros a Ha; simpl.
  - by rewrite int_wrap_id.
  - rewrite IH by apply int_wrap_range.
    apply flattened_sum_wrap_congr. unfold int_add.
    apply int_wrap_id, int_wrap_range.
Qed.

Lemma zero_in_range : int_range 0.
Proof. unfold int_range, INT_MIN, INT_MAX. lia. Qed.

(** C9. In sequential mode [get_total_constraint_length] returns, for
    every constraint list, the sum in list order of the flattened sizes
    of the constraints, as an [int] sum, which is the exact sum whenever
    that fits an [int]; each flattened size is the [int] product of the
    dimensions; the result for the empty list is 0.  The function has no
    failing path and gives back nothing but the total. *)
Theorem get_total_constraint_length_sum (constraints : list LinOp) :
  get_total_constraint_length constraints
  = int_wrap (flattened_sum constraints)
  /\ (int_range (flattened_sum constraints) ->
      get_total_constraint_length constraints = flattened_sum constraints)
  /\ Forall (fun constr =>
               vecprod (size constr) = int_wrap (dims_product (size constr)))
            constraints
  /\ get_total_constraint_length (@nil LinOp) = 0.
Proof.
  assert (Hwrap : get_total_constraint_length constraints
                  = int_wrap (flattened_sum constraints)).
  { apply total_length_from, zero_in_range. }
  split; [done|]. split.
  { intros Hfit. rewrite Hwrap. by apply int_wrap_id. }
  split; [|done].
  apply Forall_forall. intros constr _. apply vecprod_wrap.
Qed.

Lemma overlapping_cons constr (constraints : list LinOp) offset constr_offsets :
  overlapping (constr :: constraints) (offset :: constr_offsets) <->
  (exists next, constr_offsets !! 0%nat = Some next /\
                next < int_add offset (vecprod (size constr)))
  \/ overlapping constraints constr_offsets.
Proof.
  split.
  - intros (i & c & o & next & Hc & Ho & Hnext & Hlt).
    destruct i as [|i]; simpl in *.
    + left. exists next. by simplify_eq.
    + right. by exists i, c, o, next.
  - intros [(next & Hnext & Hlt) | (i & c & o & next & Hc & Ho & Hnext & Hlt)].
    + by exists 0%nat, constr, offset, next.
    + by exists (S i), c, o, next.
Qed.

Lemma check_offsets_overlapping (constraints : list LinOp) :
  forall constr_offsets offset_end,
    length constraints = length constr_offsets ->
    overlapping constraints constr_offsets ->
    check_offsets constraints constr_offsets offset_end = Fail NotMonotone.
Proof.
  induction constraints as [|c cs IH]; intros offs e Hlen Hover.
  - destruct Hover as (i & ? & ? & ? & Hc & _). by destruct i.
  - destruct offs as [|o offs]; [done|]. simpl in Hlen.
    apply overlapping_cons in Hover. simpl.
    destruct Hover as [(next & Hnext & Hlt) | Hover].
    + destruct offs as [|next' offs]; [done|]. simpl in Hnext.
      simplify_eq. by rewrite decide_True.
    + destruct offs as [|next offs].
      * apply IH; [lia | done].
      * case_decide; [done|]. apply IH; [lia | done].
Qed.

Lemma check_offsets_accepts (constraints : list LinOp) :
  forall constr_offsets offset_end,
    length constraints = length constr_offsets ->
    ~ overlapping constraints constr_offsets ->
    check_offsets constraints constr_offsets offset_end
    = Ok (match last (zip constraints constr_offsets) with
          | Some (constr, offset) => int_add offset (vecprod (size constr))
          | None => offset_end
          end).
Proof.
  induction constraints as [|c cs IH]; intros offs e Hlen Hnone.
  - by destruct offs.
  - destruct offs as [|o offs]; [done|]. simpl in Hlen.
    rewrite overlapping_cons in Hnone.
    assert (Hrest : ~ overlapping cs offs) by tauto.
    simpl check_offsets.
    destruct offs as [|next offs].
    + destruct cs; [done|done].
    + rewrite decide_False.
      2: { intros Hlt. apply Hnone. left. by exists next. }
      rewrite IH by (done || lia).
      destruct cs as [|c' cs]; [done|]. f_equal.
      change (zip (c :: c' :: cs) (o :: next :: offs))
        with ((c, o) :: (c', next) :: zip cs offs).
      change (zip (c' :: cs) (next :: offs)) with ((c', next) :: zip cs offs).
      rewrite last_cons_cons.
      destruct (last ((c', next) :: zip cs offs)) as [[c'' o'']|] eqn:Hlast;
        [done|].
      by apply last_None in Hlast.
Qed.

(** C5. With explicit offsets, [get_total_constraint_length] ends the
    run with the length-mismatch error when the two lists differ in
    length; with lists of equal length it ends the run with the ordering
    error when some constraint's offset is strictly less than the
    previous constraint's offset plus flattened size; in every other
    case it returns, and the total is the last constraint's offset plus
    its flattened size (the initial 0 when there is no constraint). *)
Theorem get_total_constraint_length_offsets_cases
    (constraints : list LinOp) (constr_offsets : list Z) :
  (length constraints <> length constr_offsets ->
   get_total_constraint_length_offsets constraints constr_offsets
   = Fail LengthMismatch)
  /\ (length constraints = length constr_offsets ->
      overlapping constraints constr_offsets ->
      get_total_constraint_length_offsets constraints constr_offsets
      = Fail NotMonotone)
  /\ (length constraints = length constr_offsets ->
      ~ overlapping constraints constr_offsets ->
      get_total_constraint_length_offsets constraints constr_offsets
      = Ok (match last (zip constraints constr_offsets) with
            | Some (constr, offset) => int_add offset (vecprod (size constr))
            | None => 0
            end)).
Proof.
  unfold get_total_constraint_length_offsets. split; [|split].
  - intros Hlen. by rewrite decide_True.
  - intros Hlen Hover. rewrite decide_False by (intros Hne; by apply Hne).
    by apply check_offsets_overlapping.
  - intros Hlen Hnone. rewrite decide_False by (intros Hne; by apply Hne).
    by apply check_offsets_accepts.
Qed.

End OffsetCalculator.

(** *** The constraint processor *)

Lemma map_grows_refl m : map_grows m m.
Proof. split; [done|]. intros k v Hk Hnone. congruence. Qed.

Lemma map_grows_trans m1 m2 m3 :
  map_grows m1 m2 -> map_grows m2 m3 -> map_grows m1 m3.
Proof.
  intros [Hsub12 Hnew12] [Hsub23 Hnew23]. split; [by etrans|].
  intros k v Hk3 Hk1.
  destruct (m2 !! k) as [v2|] eqn:Hk2.
  - assert (m3 !! k = Some v2) by (eapply lookup_weaken; eauto).
    assert (v2 = 0) by eauto. congruence.
  - eauto.
Qed.

Lemma map_index_spec m key :
  (map_index m key).2 !! key = Some (map_index m key).1 /\
  map_grows m (map_index m key).2 /\
  (m !! key = None -> (map_index m key).1 = 0).
Proof.
  unfold map_index. destruct (m !! key) as [v|] eqn:Hkey; simpl.
  - split; [done|]. split; [apply map_grows_refl|done].
  - split; [apply lookup_insert_eq|]. split; [|done]. split.
    + by apply insert_subseteq.
    + intros k v Hk Hnone. destruct (decide (key = k)) as [->|Hne].
      * rewrite lookup_insert_eq in Hk. congruence.
      * rewrite lookup_insert_ne in Hk by done. congruence.
Qed.

Section ConstraintProcessor.
Context `{Collaborators}.

Lemma call_ok_weaken var_length m m' c :
  m ⊆ m' -> call_ok var_length m c -> call_ok var_length m' c.
Proof.
  intros Hsub (Hpushed & Hfilled & Hhoriz). split; [done|]. split; [done|].
  case_decide; [done|]. by eapply lookup_weaken.
Qed.

Lemma process_blocks_spec vert_offset var_length param_id var_id blocks :
  forall i m probVec calls,
  exists m' new,
    process_blocks vert_offset var_length param_id var_id i blocks
                   (m, probVec, calls)
    = (m', probVec ++ replicate (length blocks) empty_ProblemData,
       calls ++ new)
    /\ map_grows m m'
    /\ Forall (call_ok var_length m') new
    /\ Forall (fun c => bc_vert c = vert_offset) new
    /\ map call_key new = indexed_blocks param_id var_id i blocks.
Proof.
  induction blocks as [|block blocks IH]; intros i m probVec calls.
  - exists m, []. simpl. rewrite !app_nil_r.
    split; [done|]. split; [apply map_grows_refl|]. by repeat split.
  - simpl process_blocks.
    assert (Hresolve : exists h m1,
              (if decide (var_id = CONSTANT_ID) then (var_length, m)
               else map_index m var_id) = (h, m1)
              /\ map_grows m m1
              /\ (if decide (var_id = CONSTANT_ID) then h = var_length
                  else m1 !! var_id = Some h)).
    { case_decide.
      - exists var_length, m. split; [done|]. split; [apply map_grows_refl|done].
      - destruct (map_index_spec m var_id) as (Hlook & Hgrow & _).
        exists (map_index m var_id).1, (map_index m var_id).2.
        split; [by destruct (map_index m var_id)|]. done. }
    destruct Hresolve as (h & m1 & -> & Hgrow1 & Hh).
    rewrite add_matrix_to_vectors_spec. simpl.
    match goal with
    | |- context [process_blocks _ _ _ _ _ _ (m1, ?pv, calls ++ [?c])] =>
        destruct (IH (S i) m1 pv (calls ++ [c]))
          as (m' & new & Heq & Hgrow & Hok & Hvert & Hkeys);
        exists m', (c :: new)
    end.
    rewrite Heq. split.
    { f_equal; [f_equal|]; by rewrite <- app_assoc. }
    split; [by eapply map_grows_trans|].
    split.
    { constructor; [|done].
      apply (call_ok_weaken var_length m1); [apply Hgrow|].
      split; [done|]. split; [done|]. done. }
    split; [by constructor|].
    simpl. by rewrite Hkeys.
Qed.

Lemma process_vars_spec vert_offset var_length param_id var_map :
  forall m probVec calls,
  exists m' probVec' new,
    process_vars vert_offset var_length param_id var_map (m, probVec, calls)
    = (m', probVec', calls ++ new)
    /\ map_grows m m'
    /\ Forall (call_ok var_length m') new
    /\ Forall (fun c => bc_vert c = vert_offset) new
    /\ map call_key new = dictmat_blocks param_id var_map.
Proof.
  unfold process_vars, dictmat_blocks.
  induction var_map as [|[var_id blocks] var_map IH]; intros m probVec calls.
  - exists m, probVec, []. simpl. rewrite app_nil_r.
    split; [done|]. split; [apply map_grows_refl|]. by repeat split.
  - simpl.
    destruct (process_blocks_spec vert_offset var_length param_id var_id
                blocks 0 m probVec calls)
      as (m1 & new1 & -> & Hgrow1 & Hok1 & Hvert1 & Hkeys1).
    destruct (IH m1 (probVec ++ replicate (length blocks) empty_ProblemData)
                (calls ++ new1))
      as (m' & probVec' & new & -> & Hgrow & Hok & Hvert & Hkeys).
    exists m', probVec', (new1 ++ new).
    split; [by rewrite app_assoc|].
    split; [by eapply map_grows_trans|].
    split.
    { apply Forall_app. split; [|done].
      eapply Forall_impl; [exact Hok1|]. intros c.
      apply call_ok_weaken, Hgrow. }
    split; [by apply Forall_app|].
    by rewrite map_app, Hkeys1, Hkeys.
Qed.

Lemma process_params_spec vert_offset var_length coeffs :
  forall problemData m calls,
  exists problemData' m' new,
    process_params vert_offset var_length coeffs (problemData, m, calls)
    = (problemData', m', calls ++ new)
    /\ (forall q, problemData' !! q
                  = if decide (q ∈ map fst coeffs) then Some []
                    else problemData !! q)
    /\ map_grows m m'
    /\ Forall (call_ok var_length m') new
    /\ Forall (fun c => bc_vert c = vert_offset) new
    /\ map call_key new = tensor_blocks coeffs.
Proof.
  unfold process_params, tensor_blocks.
  induction coeffs as [|[param_id var_map] coeffs IH];
    intros problemData m calls.
  - exists problemData, m, []. simpl. rewrite app_nil_r.
    split; [done|]. split.
    { intros q. by destruct (decide (q ∈ map fst (@nil (Z * DictMat))))
        as [Hq%elem_of_nil|]. }
    split; [apply map_grows_refl|]. by repeat split.
  - simpl.
    destruct (process_vars_spec vert_offset var_length param_id var_map
                m [] calls)
      as (m1 & probVec1 & new1 & -> & Hgrow1 & Hok1 & Hvert1 & Hkeys1).
    destruct (IH (<[param_id := []]> problemData) m1 (calls ++ new1))
      as (problemData' & m' & new & -> & Hlook & Hgrow & Hok & Hvert & Hkeys).
    exists problemData', m', (new1 ++ new).
    split; [by rewrite app_assoc|].
    split.
    { intros q. rewrite Hlook.
      destruct (decide (q ∈ map fst coeffs)) as [Hin|Hnin];
        destruct (decide (q ∈ _)) as [Hin'|Hnin']; try done.
      - exfalso. apply Hnin'. simpl. by apply list_elem_of_further.
      - simpl in Hin'. apply elem_of_cons in Hin' as [->|Hin']; [|done].
        apply lookup_insert_eq.
      - rewrite lookup_insert_ne; [done|].
        intros <-. apply Hnin'. simpl. apply list_elem_of_here. }
    split; [by eapply map_grows_trans|].
    split.
    { apply Forall_app. split; [|done].
      eapply Forall_impl; [exact Hok1|]. intros c.
      apply call_ok_weaken, Hgrow. }
    split; [by apply Forall_app|].
    by rewrite map_app, Hkeys1, Hkeys.
Qed.

Lemma process_constraint_spec lin problemData vert_offset var_length m :
  exists problemData' m' calls,
    process_constraint lin problemData vert_offset var_length m
    = (problemData', m', calls)
    /\ (forall q, problemData' !! q
                  = if decide (q ∈ map fst (lin_to_tensor lin 0)) then Some []
                    else problemData !! q)
    /\ map_grows m m'
    /\ Forall (call_ok var_length m') calls
    /\ Forall (fun c => bc_vert c = vert_offset) calls
    /\ map call_key calls = tensor_blocks (lin_to_tensor lin 0).
Proof.
  unfold process_constraint.
  destruct (process_params_spec vert_offset var_length (lin_to_tensor lin 0)
              problemData m [])
    as (problemData' & m' & new & Heq & Hrest).
  exists problemData', m', new. by rewrite Heq.
Qed.

End ConstraintProcessor.

(** *** The tensor initialiser *)

Lemma data_block_spec param_size :
  (0 <= param_size /\
   data_block param_size
   = Ok (replicate (Z.to_nat param_size) empty_ProblemData))
  \/ (param_size < 0 /\ data_block param_size = Fail BadVectorSize).
Proof.
  unfold data_block. case_decide; [right|left]; split; (done || lia).
Qed.

Lemma init_data_tensor_spec (param_to_size : gmap Z Z) :
  (map_Forall (fun _ n => 0 <= n) param_to_size /\
   init_data_tensor param_to_size
   = Ok ((fun n => replicate (Z.to_nat n) empty_ProblemData)
         <$> param_to_size))
  \/ (~ map_Forall (fun _ n => 0 <= n) param_to_size /\
      init_data_tensor param_to_size = Fail BadVectorSize).
Proof.
  unfold init_data_tensor.
  apply (map_fold_weak_ind (fun r (m : gmap Z Z) =>
    (map_Forall (fun _ n => 0 <= n) m /\
     r = Ok ((fun n => replicate (Z.to_nat n) empty_ProblemData) <$> m))
    \/ (~ map_Forall (fun _ n => 0 <= n) m /\ r = Fail BadVectorSize))).
  - left. split; [apply map_Forall_empty|]. by rewrite fmap_empty.
  - intros param_id param_size m r Hfresh [[Hall ->] | [Hsome ->]].
    + destruct (data_block_spec param_size) as [[Hpos ->] | [Hneg ->]].
      * left. split; [by apply map_Forall_insert_2|].
        simpl. by rewrite fmap_insert.
      * right. split; [|done]. intros Hall'.
        apply map_Forall_insert in Hall' as [Hpos _]; [lia|done].
    + right. split; [|done]. intros Hall'.
      apply map_Forall_insert in Hall' as [_ Hall]; done.
Qed.

Lemma init_data_tensor_Ok (param_to_size : gmap Z Z) prob_data :
  init_data_tensor param_to_size = Ok prob_data ->
  map_Forall (fun _ n => 0 <= n) param_to_size /\
  prob_data = (fun n => replicate (Z.to_nat n) empty_ProblemData)
              <$> param_to_size.
Proof.
  destruct (init_data_tensor_spec param_to_size) as [[Hall ->] | [_ ->]];
    [|done].
  by intros [= <-].
Qed.

(** *** The matrix builder *)

Section MatrixBuilder.
Context `{Collaborators}.

Lemma running_offsets_length (constraints : list LinOp) : forall v,
  length (running_offsets v constraints) = length constraints.
Proof.
  induction constraints as [|c cs IH]; intros v; simpl; [done|].
  by rewrite IH.
Qed.

Lemma running_offsets_lookup (constraints : list LinOp) : forall v i o,
  running_offsets v constraints !! i = Some o ->
  o = foldl (fun result constr => int_add result (vecprod (size constr)))
            v (take i constraints).
Proof.
  induction constraints as [|c cs IH]; intros v i o Hi; [done|].
  destruct i as [|i]; simpl in *; [congruence|]. by apply IH.
Qed.

Lemma check_offsets_running (constraints : list LinOp) : forall v e,
  check_offsets constraints (running_offsets v constraints) e
  = Ok (match constraints with
        | [] => e
        | _ => foldl (fun result constr =>
                        int_add result (vecprod (size constr)))
                     v constraints
        end).
Proof.
  induction constraints as [|c cs IH]; intros v e; [done|].
  specialize (IH (int_add v (vecprod (size c)))
                 (int_add v (vecprod (size c)))).
  destruct cs as [|c' cs]; [done|].
  change (running_offsets v (c :: c' :: cs))
    with (v :: running_offsets (int_add v (vecprod (size c))) (c' :: cs)).
  remember (c' :: cs) as rest eqn:Hrest.
  assert (Hhead : exists tail,
            running_offsets (int_add v (vecprod (size c))) rest
            = int_add v (vecprod (size c)) :: tail).
  { subst rest. by eexists. }
  destruct Hhead as [tail Hhead].
  cbn [check_offsets]. rewrite Hhead, <- Hhead.
  rewrite decide_False by lia. rewrite IH. by subst rest.
Qed.

Lemma build_sequential_explicit (constraints : list LinOp) var_length :
  forall v st,
    build_sequential constraints var_length v st
    = build_explicit constraints var_length
                     (running_offsets v constraints) st.
Proof.
  induction constraints as [|c cs IH]; intros v [[pd m] calls]; [done|].
  simpl. destruct (process_constraint c pd v var_length m) as [[pd' m'] new].
  apply IH.
Qed.

Lemma build_explicit_spec (constraints : list LinOp) var_length :
  forall constr_offsets prob_data m calls,
    length constraints = length constr_offsets ->
    exists prob_data' m' new,
      build_explicit constraints var_length constr_offsets
                     (prob_data, m, calls)
      = (prob_data', m', calls ++ new)
      /\ (forall q, prob_data' !! q
                    = if decide (q ∈ touched_params constraints)
                      then Some [] else prob_data !! q)
      /\ map_grows m m'
      /\ Forall (call_ok var_length m') new
      /\ Forall (fun c => bc_vert c ∈ constr_offsets) new
      /\ map call_key new
         = concat (map (fun constr => tensor_blocks (lin_to_tensor constr 0))
                       constraints).
Proof.
  induction constraints as [|c cs IH]; intros offs pd m calls Hlen.
  - exists pd, m, []. destruct offs; [|done]. simpl. rewrite app_nil_r.
    split; [done|]. split.
    { intros q. by destruct (decide (q ∈ touched_params (@nil LinOp)))
        as [Hq%elem_of_nil|]. }
    split; [apply map_grows_refl|]. by repeat split.
  - destruct offs as [|o offs]; [done|]. simpl in Hlen. simpl build_explicit.
    destruct (process_constraint_spec c pd o var_length m)
      as (pd1 & m1 & new1 & -> & Hlook1 & Hgrow1 & Hok1 & Hvert1 & Hkeys1).
    destruct (IH offs pd1 m1 (calls ++ new1)) as
      (pd' & m' & new & -> & Hlook & Hgrow & Hok & Hvert & Hkeys); [lia|].
    exists pd', m', (new1 ++ new).
    split; [by rewrite app_assoc|].
    split.
    { intros q. rewrite Hlook, Hlook1.
      unfold touched_params. simpl. fold (touched_params cs).
      destruct (decide (q ∈ touched_params cs)) as [Hin|Hnin];
        destruct (decide (q ∈ map fst (lin_to_tensor c 0))) as [Hin1|Hnin1];
        destruct (decide (q ∈ _)) as [Hin'|Hnin']; try done;
        try (exfalso; apply Hnin', elem_of_app; tauto);
        apply elem_of_app in Hin'; tauto. }
    split; [by eapply map_grows_trans|].
    split.
    { apply Forall_app. split; [|done].
      eapply Forall_impl; [exact Hok1|]. intros c0.
      apply call_ok_weaken, Hgrow. }
    split.
    { apply Forall_app. split.
      - eapply Forall_impl; [exact Hvert1|]. intros c0 ->.
        apply list_elem_of_here.
      - eapply Forall_impl; [exact Hvert|]. intros c0 ?.
        by apply list_elem_of_further. }
    simpl. by rewrite map_app, Hkeys1, Hkeys.
Qed.

End MatrixBuilder.

Section MatrixBuilderRuns.
Context `{Collaborators}.

Lemma build_matrix_run_inv (constraints : list LinOp) var_length
    id_to_col param_to_size st :
  build_matrix_run constraints var_length id_to_col param_to_size = Ok st ->
  exists prob_data,
    init_data_tensor param_to_size = Ok prob_data /\
    st = build_explicit constraints var_length
                        (running_offsets 0 constraints)
                        (prob_data, id_to_col, []).
Proof.
  unfold build_matrix_run.
  destruct (init_data_tensor param_to_size) as [prob_data|e]; [|done].
  simpl. intros [= <-]. exists prob_data. split; [done|].
  apply build_sequential_explicit.
Qed.

Lemma offsets_Ok_inv (constraints : list LinOp) constr_offsets num_rows :
  get_total_constraint_length_offsets constraints constr_offsets
  = Ok num_rows ->
  length constraints = length constr_offsets /\
  ~ overlapping constraints constr_offsets.
Proof.
  unfold get_total_constraint_length_offsets.
  case_decide as Hlen; [done|]. intros Hcheck.
  assert (Hlen' : length constraints = length constr_offsets).
  { destruct (decide (length constraints = length constr_offsets)); tauto. }
  split; [done|]. intros Hover.
  by rewrite check_offsets_overlapping in Hcheck.
Qed.

Lemma build_matrix_offsets_run_inv (constraints : list LinOp) var_length
    id_to_col param_to_size constr_offsets st :
  build_matrix_offsets_run constraints var_length id_to_col param_to_size
                           constr_offsets = Ok st ->
  exists prob_data,
    init_data_tensor param_to_size = Ok prob_data /\
    length constraints = length constr_offsets /\
    ~ overlapping constraints constr_offsets /\
    st = build_explicit constraints var_length constr_offsets
                        (prob_data, id_to_col, []).
Proof.
  unfold build_matrix_offsets_run.
  destruct (init_data_tensor param_to_size) as [prob_data|e]; [|done].
  simpl.
  destruct (get_total_constraint_length_offsets constraints constr_offsets)
    as [num_rows|e] eqn:Hcheck; [|done].
  simpl. intros [= <-]. exists prob_data.
  apply offsets_Ok_inv in Hcheck as [Hlen Hnone]. done.
Qed.

Lemma build_matrix_inv (constraints : list LinOp) var_length
    id_to_col param_to_size t :
  build_matrix constraints var_length id_to_col param_to_size = Ok t ->
  exists st,
    build_matrix_run constraints var_length id_to_col param_to_size = Ok st
    /\ t = st.1.1.
Proof.
  unfold build_matrix.
  destruct (build_matrix_run constraints var_length id_to_col param_to_size)
    as [st|e]; [|done].
  simpl. intros [= <-]. by exists st.
Qed.

Lemma build_matrix_offsets_inv (constraints : list LinOp) var_length
    id_to_col param_to_size constr_offsets t :
  build_matrix_offsets constraints var_length id_to_col param_to_size
                       constr_offsets = Ok t ->
  exists st,
    build_matrix_offsets_run constraints var_length id_to_col param_to_size
                             constr_offsets = Ok st
    /\ t = st.1.1.
Proof.
  unfold build_matrix_offsets.
  destruct (build_matrix_offsets_run constraints var_length id_to_col
              param_to_size constr_offsets) as [st|e]; [|done].
  simpl. intros [= <-]. by exists st.
Qed.

(** The state in which either loop ends, started on a fresh tensor. *)
Lemma build_explicit_from_init (constraints : list LinOp) var_length
    constr_offsets id_to_col param_to_size prob_data :
  init_data_tensor param_to_size = Ok prob_data ->
  length constraints = length constr_offsets ->
  exists t m calls,
    build_explicit constraints var_length constr_offsets
                   (prob_data, id_to_col, []) = (t, m, calls)
    /\ map_Forall (fun _ n => 0 <= n) param_to_size
    /\ (forall q, t !! q
                  = if decide (q ∈ touched_params constraints) then Some []
                    else (fun n => replicate (Z.to_nat n) empty_ProblemData)
                         <$> param_to_size !! q)
    /\ map_grows id_to_col m
    /\ Forall (call_ok var_length m) calls
    /\ Forall (fun c => bc_vert c ∈ constr_offsets) calls
    /\ map call_key calls
       = concat (map (fun constr => tensor_blocks (lin_to_tensor constr 0))
                     constraints).
Proof.
  intros Hinit Hlen. apply init_data_tensor_Ok in Hinit as [Hall ->].
  destruct (build_explicit_spec constraints var_length constr_offsets
              ((fun n => replicate (Z.to_nat n) empty_ProblemData)
               <$> param_to_size) id_to_col [] Hlen)
    as (t & m & calls & Heq & Hlook & Hrest).
  exists t, m, calls. split; [done|]. split; [done|]. split; [|done].
  intros q. rewrite Hlook. by rewrite lookup_fmap.
Qed.

(** What the tensor of a finished build holds. *)
Lemma built_tensor_slots (constraints : list LinOp) (param_to_size : gmap Z Z)
    (t : gmap Z (list ProblemData)) :
  map_Forall (fun _ n => 0 <= n) param_to_size ->
  (forall q, t !! q
             = if decide (q ∈ touched_params constraints) then Some []
               else (fun n => replicate (Z.to_nat n) empty_ProblemData)
                    <$> param_to_size !! q) ->
  (forall p, p ∈ touched_params constraints -> t !! p = Some [])
  /\ (forall p vec, t !! p = Some vec ->
                    Forall (fun d => d = empty_ProblemData) vec)
  /\ (forall p n, param_to_size !! p = Some n ->
                  p ∉ touched_params constraints ->
                  exists vec, t !! p = Some vec /\
                              Z.of_nat (length vec) = n /\
                              Forall (fun d => d = empty_ProblemData) vec).
Proof.
  intros Hall Hlook. split; [|split].
  - intros p Hp. rewrite Hlook. by rewrite decide_True.
  - intros p vec. rewrite Hlook. case_decide.
    + intros [= <-]. constructor.
    + destruct (param_to_size !! p) as [n|]; [|done]. simpl.
      intros [= <-]. apply Forall_forall.
      by intros d [-> _]%elem_of_replicate.
  - intros p n Hp Hnot. rewrite Hlook, decide_False, Hp by done. simpl.
    eexists. split; [done|]. split.
    + rewrite length_replicate. apply Hall in Hp. simpl in Hp. lia.
    + apply Forall_forall. by intros d [-> _]%elem_of_replicate.
Qed.

End MatrixBuilderRuns.

(** *** The claims about the builder and the constraint processor *)

Section Claims.
Context `{Collaborators}.

Lemma touched_params_elem (constraints : list LinOp) p :
  p ∈ touched_params constraints <->
  exists constr var_map,
    constr ∈ constraints /\ (p, var_map) ∈ lin_to_tensor constr 0.
Proof.
  unfold touched_params.
  induction constraints as [|c cs IH]; simpl.
  - split; [by intros ?%elem_of_nil|].
    by intros (constr & var_map & ?%elem_of_nil & _).
  - rewrite elem_of_app, IH. split.
    + intros [Hhere | (constr & var_map & Hconstr & Hpair)].
      * apply list_elem_of_fmap in Hhere as ([p' var_map] & -> & Hpair).
        exists c, var_map. split; [apply list_elem_of_here|done].
      * exists constr, var_map. split; [by apply list_elem_of_further|done].
    + intros (constr & var_map & Hconstr & Hpair).
      apply elem_of_cons in Hconstr as [->|Hconstr].
      * left. apply list_elem_of_fmap. by exists (p, var_map).
      * right. by exists constr, var_map.
Qed.

(** C1. Whenever [build_matrix], through either entry point, returns a
    tensor, that tensor maps every parameter id that occurs in the
    evaluator's result for some constraint to the empty sequence, and no
    record anywhere in the tensor holds a triplet: the slot is assigned
    the empty local [probVec], and every record pushed to [probVec] was
    still empty when it was copied. *)
Theorem build_matrix_touched_slots_empty
    (constraints : list LinOp) (var_length : Z)
    (id_to_col param_to_size : gmap Z Z) :
  (forall t,
     build_matrix constraints var_length id_to_col param_to_size = Ok t ->
     (forall constr p var_map,
        constr ∈ constraints -> (p, var_map) ∈ lin_to_tensor constr 0 ->
        t !! p = Some []) /\
     (forall p vec, t !! p = Some vec ->
                    Forall (fun d => d = empty_ProblemData) vec))
  /\ (forall constr_offsets t,
        build_matrix_offsets constraints var_length id_to_col param_to_size
                             constr_offsets = Ok t ->
        (forall constr p var_map,
           constr ∈ constraints -> (p, var_map) ∈ lin_to_tensor constr 0 ->
           t !! p = Some []) /\
        (forall p vec, t !! p = Some vec ->
                       Forall (fun d => d = empty_ProblemData) vec))
  /\ (forall st,
        build_matrix_run constraints var_length id_to_col param_to_size
        = Ok st ->
        Forall (fun c => bc_pushed c = empty_ProblemData) st.2)
  /\ (forall constr_offsets st,
        build_matrix_offsets_run constraints var_length id_to_col
                                 param_to_size constr_offsets = Ok st ->
        Forall (fun c => bc_pushed c = empty_ProblemData) st.2).
Proof.
  assert (Hfinal : forall offs prob_data,
            init_data_tensor param_to_size = Ok prob_data ->
            length constraints = length offs ->
            let st := build_explicit constraints var_length offs
                                     (prob_data, id_to_col, []) in
            ((forall constr p var_map,
                constr ∈ constraints ->
                (p, var_map) ∈ lin_to_tensor constr 0 ->
                st.1.1 !! p = Some []) /\
             (forall p vec, st.1.1 !! p = Some vec ->
                            Forall (fun d => d = empty_ProblemData) vec)) /\
            Forall (fun c => bc_pushed c = empty_ProblemData) st.2).
  { intros offs prob_data Hinit Hlen.
    destruct (build_explicit_from_init constraints var_length offs id_to_col
                param_to_size prob_data Hinit Hlen)
      as (t & m & calls & -> & Hall & Hlook & _ & Hok & _).
    simpl.
    destruct (built_tensor_slots constraints param_to_size t Hall Hlook)
      as (Htouched & Hempty & _).
    split; [split; [|done]|].
    - intros constr p var_map Hconstr Hpair. apply Htouched.
      apply touched_params_elem. by exists constr, var_map.
    - eapply Forall_impl; [exact Hok|]. by intros c (Hpushed & _). }
  split; [|split; [|split]].
  - intros t (st & Hrun & ->)%build_matrix_inv.
    apply build_matrix_run_inv in Hrun as (prob_data & Hinit & ->).
    apply Hfinal; [done|]. by rewrite running_offsets_length.
  - intros offs t (st & Hrun & ->)%build_matrix_offsets_inv.
    apply build_matrix_offsets_run_inv in Hrun
      as (prob_data & Hinit & Hlen & _ & ->).
    by apply Hfinal.
  - intros st (prob_data & Hinit & ->)%build_matrix_run_inv.
    apply Hfinal; [done|]. by rewrite running_offsets_length.
  - intros offs st (prob_data & Hinit & Hlen & _ & ->)%build_matrix_offsets_run_inv.
    by apply Hfinal.
Qed.

(** C2, as amended.  Whenever [build_matrix], through either entry
    point, returns a tensor, then for every parameter id of the
    parameter-size map that occurs in no constraint's evaluator result the
    sequence held for that id has exactly the declared number of entries,
    each of them empty Coordinate Data. *)
Theorem build_matrix_untouched_slots
    (constraints : list LinOp) (var_length : Z)
    (id_to_col param_to_size : gmap Z Z) :
  (forall t,
     build_matrix constraints var_length id_to_col param_to_size = Ok t ->
     forall p n,
       param_to_size !! p = Some n ->
       (forall constr var_map,
          constr ∈ constraints -> (p, var_map) ∉ lin_to_tensor constr 0) ->
       exists vec, t !! p = Some vec /\ Z.of_nat (length vec) = n /\
                   Forall (fun d => d = empty_ProblemData) vec)
  /\ (forall constr_offsets t,
        build_matrix_offsets constraints var_length id_to_col param_to_size
                             constr_offsets = Ok t ->
        forall p n,
          param_to_size !! p = Some n ->
          (forall constr var_map,
             constr ∈ constraints -> (p, var_map) ∉ lin_to_tensor constr 0) ->
          exists vec, t !! p = Some vec /\ Z.of_nat (length vec) = n /\
                      Forall (fun d => d = empty_ProblemData) vec).
Proof.
  assert (Hfinal : forall offs prob_data,
            init_data_tensor param_to_size = Ok prob_data ->
            length constraints = length offs ->
            let st := build_explicit constraints var_length offs
                                     (prob_data, id_to_col, []) in
            forall p n,
              param_to_size !! p = Some n ->
              (forall constr var_map,
                 constr ∈ constraints ->
                 (p, var_map) ∉ lin_to_tensor constr 0) ->
              exists vec, st.1.1 !! p = Some vec /\
                          Z.of_nat (length vec) = n /\
                          Forall (fun d => d = empty_ProblemData) vec).
  { intros offs prob_data Hinit Hlen.
    destruct (build_explicit_from_init constraints var_length offs id_to_col
                param_to_size prob_data Hinit Hlen)
      as (t & m & calls & -> & Hall & Hlook & _).
    simpl. intros p n Hp Hnot.
    destruct (built_tensor_slots constraints param_to_size t Hall Hlook)
      as (_ & _ & Huntouched).
    apply Huntouched; [done|].
    intros (constr & var_map & Hconstr & Hpair)%touched_params_elem.
    by eapply Hnot. }
  split.
  - intros t (st & Hrun & ->)%build_matrix_inv.
    apply build_matrix_run_inv in Hrun as (prob_data & Hinit & ->).
    apply Hfinal; [done|]. by rewrite running_offsets_length.
  - intros offs t (st & Hrun & ->)%build_matrix_offsets_inv.
    apply build_matrix_offsets_run_inv in Hrun
      as (prob_data & Hinit & Hlen & _ & ->).
    by apply Hfinal.
Qed.

(** C3. Given as explicit offsets the running sums of the flattened
    sizes (the offset of a constraint is the sequential total of the
    constraints before it), the explicit-offset [build_matrix] accepts
    them, counts the same total of rows as the sequential calculator,
    and returns exactly what the automatic-offset [build_matrix] returns
    on the same inputs, down to every local record of the run. *)
Theorem build_matrix_offsets_running_sums
    (constraints : list LinOp) (var_length : Z)
    (id_to_col param_to_size : gmap Z Z) :
  build_matrix_offsets constraints var_length id_to_col param_to_size
                       (running_offsets 0 constraints)
  = build_matrix constraints var_length id_to_col param_to_size
  /\ build_matrix_offsets_run constraints var_length id_to_col param_to_size
                              (running_offsets 0 constraints)
     = build_matrix_run constraints var_length id_to_col param_to_size
  /\ get_total_constraint_length_offsets constraints
                                         (running_offsets 0 constraints)
     = Ok (get_total_constraint_length constraints)
  /\ (forall (i : nat) (o : Z),
        running_offsets 0 constraints !! i = Some o ->
        o = get_total_constraint_length (take i constraints)).
Proof.
  assert (Htotal : get_total_constraint_length_offsets constraints
                     (running_offsets 0 constraints)
                   = Ok (get_total_constraint_length constraints)).
  { unfold get_total_constraint_length_offsets.
    rewrite decide_False by (rewrite running_offsets_length; tauto).
    rewrite check_offsets_running. by destruct constraints. }
  assert (Hrun : build_matrix_offsets_run constraints var_length id_to_col
                   param_to_size (running_offsets 0 constraints)
                 = build_matrix_run constraints var_length id_to_col
                                    param_to_size).
  { unfold build_matrix_offsets_run, build_matrix_run.
    destruct (init_data_tensor param_to_size) as [prob_data|e]; [|done].
    simpl. rewrite Htotal. simpl. by rewrite build_sequential_explicit. }
  split; [|split; [done|split; [done|]]].
  - unfold build_matrix_offsets, build_matrix. by rewrite Hrun.
  - intros i o Hi. by apply running_offsets_lookup in Hi.
Qed.

End Claims.

Section ClaimsProcessor.
Context `{Collaborators}.

Lemma init_data_tensor_accepts (param_to_size : gmap Z Z) :
  map_Forall (fun _ n => 0 <= n) param_to_size ->
  init_data_tensor param_to_size
  = Ok ((fun n => replicate (Z.to_nat n) empty_ProblemData)
        <$> param_to_size).
Proof.
  intros Hall.
  by destruct (init_data_tensor_spec param_to_size) as [[_ ->] | [Hnot _]].
Qed.

Lemma undeclared_resolves_to_zero var_length (id_to_col m : gmap Z Z) c :
  map_grows id_to_col m ->
  call_ok var_length m c ->
  bc_var c <> CONSTANT_ID ->
  id_to_col !! bc_var c = None ->
  bc_horiz c = 0 /\ m !! bc_var c = Some 0.
Proof.
  intros [_ Hnew] (_ & _ & Hhoriz) Hvar Hnone.
  rewrite decide_False in Hhoriz by done.
  assert (bc_horiz c = 0) as Hzero by eauto.
  split; [done|]. by rewrite <- Hzero.
Qed.

(** What the accumulator is handed, block by block.  [process_constraint]
    runs it once for every block the evaluator returned, in order, with
    the constraint's vertical offset and a horizontal offset that is
    [var_length] when the variable id is [CONSTANT_ID] and the column
    map's entry when the id is another one that the map declares.  The
    column indices written into the loop-local [probBlock] are the block's
    column indices moved by that offset, and so lie in the range from the
    offset up to, and not including, the offset plus the number of columns
    of the block, for a well-formed block whose range fits the [int] type.
    This is about the local record only: it does not say that anything
    reaches the tensor. *)
Theorem process_constraint_columns
    (lin : LinOp) (problemData : gmap Z (list ProblemData))
    (vert_offset var_length : Z) (id_to_col : gmap Z Z) :
  map call_key
      (process_constraint lin problemData vert_offset var_length id_to_col).2
  = tensor_blocks (lin_to_tensor lin 0)
  /\ Forall (fun c =>
       bc_vert c = vert_offset /\
       bc_probBlock c
       = {| V := map (fun e : float * Z * Z => e.1.1) (nonzeros (bc_block c));
            I := map (fun e : float * Z * Z => int_add e.1.2 vert_offset)
                     (nonzeros (bc_block c));
            J := map (fun e : float * Z * Z => int_add e.2 (bc_horiz c))
                     (nonzeros (bc_block c)) |} /\
       (bc_var c = CONSTANT_ID -> bc_horiz c = var_length) /\
       (forall col, bc_var c <> CONSTANT_ID ->
                    id_to_col !! bc_var c = Some col ->
                    bc_horiz c = col) /\
       (Matrix_wf (bc_block c) ->
        INT_MIN <= bc_horiz c ->
        bc_horiz c + cols (bc_block c) - 1 <= INT_MAX ->
        Forall (fun j => bc_horiz c <= j < bc_horiz c + cols (bc_block c))
               (J (bc_probBlock c))))
      (process_constraint lin problemData vert_offset var_length id_to_col).2.
Proof.
  destruct (process_constraint_spec lin problemData vert_offset var_length
              id_to_col)
    as (pd' & m' & calls & -> & _ & [Hsub _] & Hok & Hvert & Hkeys).
  simpl. split; [done|].
  apply Forall_forall. intros c Hc.
  rewrite Forall_forall in Hok, Hvert.
  destruct (Hok c Hc) as (_ & Hfilled & Hhoriz).
  specialize (Hvert c Hc).
  split; [done|]. split; [by rewrite Hfilled, Hvert|].
  split; [|split].
  - intros Hconst. by rewrite decide_True in Hhoriz.
  - intros col Hvar Hdeclared. rewrite decide_False in Hhoriz by done.
    eapply lookup_weaken in Hdeclared; [|exact Hsub]. congruence.
  - intros Hwf Hlow Hhigh. rewrite Hfilled. simpl.
    apply Forall_map.
    eapply Forall_impl; [apply (nonzeros_cols _ Hwf)|].
    intros e He. simpl in *.
    rewrite int_add_exact; [lia|].
    unfold int_range. lia.
Qed.

(** C6, as amended.  An explicit-offset build whose offsets list has the
    wrong length, or in which some constraint starts before its
    predecessor ends, returns no tensor at all; when the parameter sizes
    are such that the tensor could be initialised, the run ends with the
    length-mismatch error in the first case and, for lists of equal
    length, with the ordering error in the second.  Offsets that leave no
    overlap, gaps included, are accepted and the build returns. *)
Theorem build_matrix_offsets_rejects
    (constraints : list LinOp) (var_length : Z)
    (id_to_col param_to_size : gmap Z Z) (constr_offsets : list Z) :
  (length constraints <> length constr_offsets
   \/ overlapping constraints constr_offsets ->
   forall t,
     build_matrix_offsets constraints var_length id_to_col param_to_size
                          constr_offsets <> Ok t)
  /\ (map_Forall (fun _ n => 0 <= n) param_to_size ->
      length constraints <> length constr_offsets ->
      build_matrix_offsets constraints var_length id_to_col param_to_size
                           constr_offsets = Fail LengthMismatch)
  /\ (map_Forall (fun _ n => 0 <= n) param_to_size ->
      length constraints = length constr_offsets ->
      overlapping constraints constr_offsets ->
      build_matrix_offsets constraints var_length id_to_col param_to_size
                           constr_offsets = Fail NotMonotone)
  /\ (map_Forall (fun _ n => 0 <= n) param_to_size ->
      length constraints = length constr_offsets ->
      ~ overlapping constraints constr_offsets ->
      exists t,
        build_matrix_offsets constraints var_length id_to_col param_to_size
                             constr_offsets = Ok t).
Proof.
  split; [|split; [|split]].
  - intros Hbad t (st & Hrun & _)%build_matrix_offsets_inv.
    apply build_matrix_offsets_run_inv in Hrun as (_ & _ & Hlen & Hnone & _).
    tauto.
  - intros Hall Hlen.
    unfold build_matrix_offsets, build_matrix_offsets_run.
    rewrite (init_data_tensor_accepts _ Hall). simpl.
    unfold get_total_constraint_length_offsets.
    by rewrite decide_True.
  - intros Hall Hlen Hover.
    unfold build_matrix_offsets, build_matrix_offsets_run.
    rewrite (init_data_tensor_accepts _ Hall). simpl.
    unfold get_total_constraint_length_offsets.
    rewrite decide_False by tauto.
    by rewrite check_offsets_overlapping.
  - intros Hall Hlen Hnone.
    unfold build_matrix_offsets, build_matrix_offsets_run.
    rewrite (init_data_tensor_accepts _ Hall). simpl.
    unfold get_total_constraint_length_offsets.
    rewrite decide_False by tauto.
    rewrite check_offsets_accepts by done. simpl. by eexists.
Qed.

(** C10. A variable id other than [CONSTANT_ID] that the column map does
    not declare makes [process_constraint] neither stop nor skip a block:
    [operator[]] inserts the id with value 0 into the map it was handed
    and the horizontal offset of the block is 0.  [build_matrix] works on
    its own copy of the caller's column map: for every column map it
    runs to the end and hands back the tensor only, while the default
    entries are in the copy and the map it was called with still has
    none for those ids. *)
Theorem process_constraint_undeclared_variable
    (lin : LinOp) (problemData : gmap Z (list ProblemData))
    (vert_offset var_length : Z) (id_to_col : gmap Z Z) :
  map call_key
      (process_constraint lin problemData vert_offset var_length id_to_col).2
  = tensor_blocks (lin_to_tensor lin 0)
  /\ Forall (fun c =>
       bc_var c <> CONSTANT_ID ->
       id_to_col !! bc_var c = None ->
       bc_horiz c = 0 /\
       (process_constraint lin problemData vert_offset var_length
                           id_to_col).1.2 !! bc_var c = Some 0)
      (process_constraint lin problemData vert_offset var_length id_to_col).2
  /\ (forall (constraints : list LinOp) (param_to_size : gmap Z Z),
        map_Forall (fun _ n => 0 <= n) param_to_size ->
        exists st,
          build_matrix_run constraints var_length id_to_col param_to_size
          = Ok st /\
          build_matrix constraints var_length id_to_col param_to_size
          = Ok st.1.1 /\
          map call_key st.2
          = concat (map (fun constr => tensor_blocks (lin_to_tensor constr 0))
                        constraints) /\
          Forall (fun c =>
                    bc_var c <> CONSTANT_ID ->
                    id_to_col !! bc_var c = None ->
                    bc_horiz c = 0 /\ st.1.2 !! bc_var c = Some 0 /\
                    id_to_col !! bc_var c = None)
                 st.2).
Proof.
  split; [|split].
  - by destruct (process_constraint_spec lin problemData vert_offset
                   var_length id_to_col)
      as (pd' & m' & calls & -> & _ & _ & _ & _ & Hkeys).
  - destruct (process_constraint_spec lin problemData vert_offset
                var_length id_to_col)
      as (pd' & m' & calls & -> & _ & Hgrow & Hok & _).
    simpl. eapply Forall_impl; [exact Hok|].
    intros c Hc Hvar Hnone.
    by apply (undeclared_resolves_to_zero var_length id_to_col m' c).
  - intros constraints param_to_size Hall.
    pose proof (init_data_tensor_accepts _ Hall) as Hinit.
    destruct (build_explicit_from_init constraints var_length
                (running_offsets 0 constraints) id_to_col param_to_size _
                Hinit)
      as (t & m & calls & Heq & _ & _ & Hgrow & Hok & _ & Hkeys).
    { by rewrite running_offsets_length. }
    assert (Hrun : build_matrix_run constraints var_length id_to_col
                     param_to_size = Ok (t, m, calls)).
    { unfold build_matrix_run. rewrite Hinit. simpl.
      by rewrite build_sequential_explicit, Heq. }
    exists (t, m, calls). split; [done|]. split.
    { unfold build_matrix. by rewrite Hrun. }
    split; [done|]. simpl.
    eapply Forall_impl; [exact Hok|].
    intros c Hc Hvar Hnone.
    destruct (undeclared_resolves_to_zero var_length id_to_col m c)
      as [Hzero Hcopy]; done.
Qed.

End ClaimsProcessor.

(** *** The claims on concrete inputs *)

Lemma demo_sizes_accepted : map_Forall (fun _ n : Z => 0 <= n) demo_sizes.
Proof.
  unfold demo_sizes. apply map_Forall_insert_2; [lia|].
  apply map_Forall_insert_2; [lia|]. apply map_Forall_empty.
Qed.

Lemma demo_offsets_disjoint (next : Z) :
  2 <= next -> ~ overlapping (H := demo) demo_constraints [0; next].
Proof.
  intros Hnext (i & c & o & next' & Hc & Ho & Hn & Hlt).
  destruct i as [|[|i]]; [| |done].
  - injection Hc as <-. injection Ho as <-. injection Hn as <-.
    change (next < 2) in Hlt. lia.
  - done.
Qed.

Lemma build_matrix_touched_slots_empty_witness :
  exists t,
    build_matrix (H := demo) demo_constraints 6 demo_columns demo_sizes = Ok t
    /\ t !! 7 = Some [].
Proof.
  destruct (build_matrix_touched_slots_empty (H := demo) demo_constraints 6
              demo_columns demo_sizes) as (Hseq & _).
  destruct (build_matrix (H := demo) demo_constraints 6 demo_columns demo_sizes)
    as [t|e] eqn:Hbuild; [|vm_compute in Hbuild; discriminate].
  exists t. split; [reflexivity|].
  destruct (Hseq t eq_refl) as [Htouched _].
  apply (Htouched demo_constraint 7 (demo_constraint.2 !!! 0%nat).2);
    apply list_elem_of_here.
Defined.

Lemma build_matrix_slot_length_counterexample :
  build_matrix (H := demo) demo_constraints 6 demo_columns demo_sizes
  = Ok {[ 7 := []; 9 := replicate 3 empty_ProblemData ]}
  /\ demo_sizes !! 7 = Some 2
  /\ ~ (forall t,
          build_matrix (H := demo) demo_constraints 6 demo_columns demo_sizes
          = Ok t ->
          forall p n,
            demo_sizes !! p = Some n ->
            exists vec, t !! p = Some vec /\ Z.of_nat (length vec) = n).
Proof.
  assert (Hbuild : build_matrix (H := demo) demo_constraints 6 demo_columns
                                demo_sizes
                   = Ok {[ 7 := []; 9 := replicate 3 empty_ProblemData ]}).
  { vm_compute. reflexivity. }
  split; [exact Hbuild|]. split; [reflexivity|].
  intros Hclaim.
  destruct (Hclaim _ Hbuild 7 2 eq_refl) as (vec & Hvec & Hlen).
  vm_compute in Hvec. injection Hvec as <-. discriminate Hlen.
Qed.

Lemma build_matrix_untouched_slots_witness :
  exists t vec,
    build_matrix (H := demo) demo_constraints 6 demo_columns demo_sizes = Ok t
    /\ t !! 9 = Some vec /\ Z.of_nat (length vec) = 3
    /\ Forall (fun d => d = empty_ProblemData) vec.
Proof.
  destruct (build_matrix_untouched_slots (H := demo) demo_constraints 6
              demo_columns demo_sizes) as (Hseq & _).
  destruct (build_matrix (H := demo) demo_constraints 6 demo_columns demo_sizes)
    as [t|e] eqn:Hbuild; [|vm_compute in Hbuild; discriminate].
  destruct (Hseq t eq_refl 9 3) as (vec & Hvec & Hlen & Hempty).
  - reflexivity.
  - intros constr var_map Hconstr Hpair.
    apply elem_of_cons in Hconstr as [->|Hconstr].
    + apply elem_of_cons in Hpair as [Hpair|Hpair]; [discriminate Hpair|].
      by apply elem_of_nil in Hpair.
    + apply elem_of_cons in Hconstr as [->|Hconstr].
      * by apply elem_of_nil in Hpair.
      * by apply elem_of_nil in Hconstr.
  - by exists t, vec.
Defined.

Lemma build_matrix_offsets_running_sums_witness :
  build_matrix_offsets (H := demo) demo_constraints 6 demo_columns demo_sizes
                       [0; 2]
  = build_matrix (H := demo) demo_constraints 6 demo_columns demo_sizes
  /\ 2 = get_total_constraint_length (H := demo) (take 1 demo_constraints).
Proof.
  destruct (build_matrix_offsets_running_sums (H := demo) demo_constraints 6
              demo_columns demo_sizes) as (Hsame & _ & _ & Hoffset).
  split; [exact Hsame|]. apply (Hoffset 1%nat 2). reflexivity.
Defined.

Lemma process_constraint_columns_witness :
  exists c,
    (process_constraint (H := demo) demo_constraint ∅ 0 6 demo_columns).2
      !! 2%nat = Some c
    /\ bc_var c = 3 /\ bc_horiz c = 4
    /\ Forall (fun j => 4 <= j < 6) (J (bc_probBlock c)).
Proof.
  destruct (process_constraint_columns (H := demo) demo_constraint ∅ 0 6
              demo_columns) as [_ Hall].
  rewrite Forall_lookup in Hall.
  destruct ((process_constraint (H := demo) demo_constraint ∅ 0 6
               demo_columns).2 !! 2%nat) as [c|] eqn:Hc;
    [|vm_compute in Hc; discriminate].
  destruct (Hall 2%nat c Hc) as (_ & _ & _ & Hdeclared & Hrange).
  assert (Hvar : bc_var c = 3).
  { vm_compute in Hc. by injection Hc as <-. }
  assert (Hblock : bc_block c = diagonal_block 2%float).
  { vm_compute in Hc. by injection Hc as <-. }
  assert (Hhoriz : bc_horiz c = 4).
  { apply Hdeclared; [rewrite Hvar; discriminate | by rewrite Hvar]. }
  exists c. split; [reflexivity|]. split; [done|]. split; [done|].
  rewrite Hhoriz, Hblock in Hrange. apply Hrange.
  - repeat split; simpl; try lia. repeat constructor; simpl; lia.
  - unfold INT_MIN. lia.
  - unfold INT_MAX. simpl. lia.
Defined.

Lemma get_total_constraint_length_offsets_cases_witness :
  get_total_constraint_length_offsets (H := demo) demo_constraints [0]
  = Fail LengthMismatch
  /\ get_total_constraint_length_offsets (H := demo) demo_constraints [0; 1]
     = Fail NotMonotone
  /\ get_total_constraint_length_offsets (H := demo) demo_constraints [0; 2]
     = Ok 5.
Proof.
  split; [|split].
  - apply (get_total_constraint_length_offsets_cases (H := demo)
             demo_constraints [0]).
    discriminate.
  - apply (get_total_constraint_length_offsets_cases (H := demo)
             demo_constraints [0; 1]); [reflexivity|].
    exists 0%nat, demo_constraint, 0, 1. repeat split; reflexivity.
  - apply (get_total_constraint_length_offsets_cases (H := demo)
             demo_constraints [0; 2]); [reflexivity|].
    apply demo_offsets_disjoint. lia.
Defined.

Lemma build_matrix_offsets_gap_counterexample :
  gapped (H := demo) demo_constraints [0; 3]
  /\ build_matrix_offsets (H := demo) demo_constraints 6 demo_columns
                          demo_sizes [0; 3]
     = Ok {[ 7 := []; 9 := replicate 3 empty_ProblemData ]}.
Proof.
  split.
  - exists 0%nat, demo_constraint, 0, 3. repeat split; reflexivity.
  - vm_compute. reflexivity.
Qed.

Lemma build_matrix_offsets_rejects_witness :
  build_matrix_offsets (H := demo) demo_constraints 6 demo_columns demo_sizes
                       [0] = Fail LengthMismatch
  /\ build_matrix_offsets (H := demo) demo_constraints 6 demo_columns
                          demo_sizes [0; 1] = Fail NotMonotone
  /\ (exists t,
        build_matrix_offsets (H := demo) demo_constraints 6 demo_columns
                             demo_sizes [0; 3] = Ok t).
Proof.
  split; [|split].
  - apply (build_matrix_offsets_rejects (H := demo) demo_constraints 6
             demo_columns demo_sizes [0]);
      [apply demo_sizes_accepted | discriminate].
  - apply (build_matrix_offsets_rejects (H := demo) demo_constraints 6
             demo_columns demo_sizes [0; 1]);
      [apply demo_sizes_accepted | reflexivity |].
    exists 0%nat, demo_constraint, 0, 1. repeat split; reflexivity.
  - apply (build_matrix_offsets_rejects (H := demo) demo_constraints 6
             demo_columns demo_sizes [0; 3]);
      [apply demo_sizes_accepted | reflexivity |].
    apply demo_offsets_disjoint. lia.
Defined.

Lemma add_matrix_to_vectors_appends_witness :
  add_matrix_to_vectors block_3x2 [9%float] [7] [8] 2 5
  = ([9%float; 1.5%float; 4%float; (-2)%float], [7; 2; 4; 3], [8; 5; 5; 6]).
Proof.
  destruct (add_matrix_to_vectors_appends block_3x2 [9%float] [7] [8] 2 5)
    as (_ & Hexact & _).
  rewrite Hexact; [reflexivity|].
  repeat constructor; vm_compute; congruence.
Defined.

Lemma get_total_constraint_length_sum_witness :
  get_total_constraint_length (H := demo) demo_constraints = 5.
Proof.
  destruct (get_total_constraint_length_sum (H := demo) demo_constraints)
    as (_ & Hexact & _).
  rewrite Hexact; [reflexivity|].
  split; vm_compute; congruence.
Defined.

Lemma process_constraint_undeclared_variable_witness :
  exists c,
    (process_constraint (H := demo) demo_constraint ∅ 0 6 demo_columns).2
      !! 4%nat = Some c
    /\ bc_var c = 5 /\ demo_columns !! 5 = None /\ bc_horiz c = 0
    /\ (process_constraint (H := demo) demo_constraint ∅ 0 6 demo_columns).1.2
         !! 5 = Some 0.
Proof.
  destruct (process_constraint_undeclared_variable (H := demo) demo_constraint
              ∅ 0 6 demo_columns) as (_ & Hall & _).
  rewrite Forall_lookup in Hall.
  destruct ((process_constraint (H := demo) demo_constraint ∅ 0 6
               demo_columns).2 !! 4%nat) as [c|] eqn:Hc;
    [|vm_compute in Hc; discriminate].
  assert (Hvar : bc_var c = 5).
  { vm_compute in Hc. by injection Hc as <-. }
  destruct (Hall 4%nat c Hc) as [Hzero Hcopy].
  - rewrite Hvar. discriminate.
  - by rewrite Hvar.
  - exists c. rewrite Hvar in Hcopy. by repeat split.
Defined.

(* ===================================================================== *)
(** ** Further properties of the assembly *)
(* ===================================================================== *)

(** *** The tensor initialiser *)

(** X1. [init_data_tensor] returns if and only if no declared size is
    negative, and throws otherwise; the tensor it returns has an entry for
    exactly the declared parameter ids, and the entry of a parameter is a
    sequence of as many empty records as its declared size. *)
Theorem init_data_tensor_exact (param_to_size : gmap Z Z) :
  (map_Forall (fun _ n => 0 <= n) param_to_size <->
   exists t, init_data_tensor param_to_size = Ok t)
  /\ (~ map_Forall (fun _ n => 0 <= n) param_to_size <->
      init_data_tensor param_to_size = Fail BadVectorSize)
  /\ (forall t,
        init_data_tensor param_to_size = Ok t ->
        dom t = dom param_to_size /\
        forall p n,
          param_to_size !! p = Some n ->
          exists vec, t !! p = Some vec /\ Z.of_nat (length vec) = n /\
                      Forall (fun d => d = empty_ProblemData) vec).
Proof.
  destruct (init_data_tensor_spec param_to_size) as [[Hall Heq] | [Hnot Heq]];
    rewrite Heq.
  - split; [|split].
    + split; [by eexists | done].
    + split; [done | discriminate].
    + intros t [= <-]. split; [apply dom_fmap_L|].
      intros p n Hp. rewrite lookup_fmap, Hp. simpl.
      eexists. split; [done|]. split.
      * rewrite length_replicate. apply Hall in Hp. simpl in Hp. lia.
      * apply Forall_forall. by intros d [-> _]%elem_of_replicate.
  - split; [|split].
    + split; [done | by intros [t Ht]].
    + done.
    + discriminate.
Qed.

Lemma init_data_tensor_exact_witness :
  exists t vec,
    init_data_tensor demo_sizes = Ok t /\
    t !! 9 = Some vec /\ Z.of_nat (length vec) = 3.
Proof.
  destruct (init_data_tensor_exact demo_sizes) as (Hreturns & _ & Hslots).
  destruct (proj1 Hreturns) as [t Ht].
  { unfold demo_sizes. apply map_Forall_insert_2; [lia|].
    apply map_Forall_insert_2; [lia|]. apply map_Forall_empty. }
  destruct (Hslots t Ht) as [_ Hslot].
  destruct (Hslot 9 3) as (vec & Hvec & Hlen & _); [reflexivity|].
  by exists t, vec.
Defined.

(** *** The dense constant extender *)

(** X2. [extend_constant_vec] has a defined result exactly when every
    stored entry of the block has its flattened index inside the dense
    vector; a single index outside makes the whole run undefined. *)
Theorem extend_constant_vec_defined_iff
    (const_vec : list float) (vert_offset : Z) (block : Matrix) :
  is_Some (extend_constant_vec const_vec vert_offset block) <->
  in_bounds (rows block) vert_offset (length const_vec) (nonzeros block).
Proof.
  split.
  - intros [vec' Hrun]. by apply extend_constant_vec_Some in Hrun as (_ & ? & _).
  - apply extend_columns_total.
Qed.

Lemma extend_constant_vec_defined_iff_witness :
  is_Some (extend_constant_vec zeros8 1 block_3x2)
  /\ ~ is_Some (extend_constant_vec zeros8 6 block_3x2).
Proof.
  split.
  - apply extend_constant_vec_defined_iff.
    repeat constructor; vm_compute; congruence.
  - intros Hsome. apply extend_constant_vec_defined_iff in Hsome.
    apply Forall_cons in Hsome as [_ Hsome].
    apply Forall_cons in Hsome as [[_ Hhigh] _].
    vm_compute in Hhigh. discriminate Hhigh.
Defined.

Lemma flat_index_in_block block vert_offset n (e : float * Z * Z) :
  0 <= vert_offset ->
  vert_offset + rows block * cols block <= n ->
  n <= INT_MAX + 1 ->
  0 <= e.1.2 < rows block ->
  0 <= e.2 < cols block ->
  flat_index vert_offset (rows block) e.2 e.1.2
  = vert_offset + e.2 * rows block + e.1.2
  /\ vert_offset <= vert_offset + e.2 * rows block + e.1.2
     < vert_offset + rows block * cols block.
Proof.
  intros Hvert Hfit Hint Hrow Hcol.
  assert (Hbound : vert_offset <= vert_offset + e.2 * rows block + e.1.2
                   < vert_offset + rows block * cols block) by nia.
  split; [|done].
  apply flat_index_exact. unfold int_range, INT_MIN. lia.
Qed.

Lemma contributions_of_none rows vert_offset p es :
  Forall (fun e : float * Z * Z =>
            flat_index vert_offset rows e.2 e.1.2 <> Z.of_nat p) es ->
  contributions_of rows vert_offset p es = [].
Proof.
  induction 1 as [|e es Hmiss _ IH]; [done|].
  by rewrite contributions_of_miss.
Qed.

(** X3. For a well-formed block of [rows] x [cols] and a dense vector that
    has at least [rows * cols] elements from a non-negative [vert_offset]
    on (and no more elements than an [int] can index),
    [extend_constant_vec] has a defined result, and it changes nothing
    outside the positions from [vert_offset] up to, and not including,
    [vert_offset + rows * cols]. *)
Theorem extend_constant_vec_fits
    (const_vec : list float) (vert_offset : Z) (block : Matrix) :
  Matrix_wf block ->
  0 <= vert_offset ->
  vert_offset + rows block * cols block <= Z.of_nat (length const_vec) ->
  Z.of_nat (length const_vec) <= INT_MAX + 1 ->
  exists vec',
    extend_constant_vec const_vec vert_offset block = Some vec' /\
    length vec' = length const_vec /\
    forall p : nat,
      (Z.of_nat p < vert_offset \/
       vert_offset + rows block * cols block <= Z.of_nat p) ->
      vec' !! p = const_vec !! p.
Proof.
  intros Hwf Hvert Hfit Hint.
  pose proof (nonzeros_rows block Hwf) as Hrows.
  pose proof (nonzeros_cols block Hwf) as Hcols.
  assert (Hall : Forall (fun e : float * Z * Z =>
                   flat_index vert_offset (rows block) e.2 e.1.2
                   = vert_offset + e.2 * rows block + e.1.2
                   /\ vert_offset <= vert_offset + e.2 * rows block + e.1.2
                      < vert_offset + rows block * cols block)
                  (nonzeros block)).
  { rewrite Forall_forall in Hrows, Hcols. apply Forall_forall. intros e He.
    eapply flat_index_in_block; eauto. }
  destruct (extend_columns_total (rows block) vert_offset (outer block) 0
              const_vec) as [vec' Hrun].
  { eapply Forall_impl; [exact Hall|]. intros e [-> Hrange]. lia. }
  exists vec'. split; [exact Hrun|].
  apply extend_constant_vec_Some in Hrun as (Hlen & _ & Hlook).
  split; [done|]. intros p Hout. rewrite Hlook.
  assert (Hnone : contributions vert_offset block p = []).
  { apply contributions_of_none.
    eapply Forall_impl; [exact Hall|]. intros e [-> Hrange]. lia. }
  rewrite Hnone. by destruct (const_vec !! p).
Qed.

Lemma extend_constant_vec_fits_witness :
  exists vec',
    extend_constant_vec zeros8 1 block_3x2 = Some vec' /\
    length vec' = 8%nat /\
    vec' !! 0%nat = Some 0%float /\ vec' !! 7%nat = Some 0%float.
Proof.
  destruct (extend_constant_vec_fits zeros8 1 block_3x2)
    as (vec' & Hrun & Hlen & Hout).
  - repeat split; simpl; try lia. repeat constructor; simpl; lia.
  - lia.
  - simpl. lia.
  - unfold INT_MAX. simpl. lia.
  - exists vec'. split; [done|]. split; [done|]. split.
    + rewrite Hout; [reflexivity | simpl; lia].
    + rewrite Hout; [reflexivity | simpl; lia].
Defined.

(** X4. Running [extend_constant_vec] for a block and then for a second
    block on the result leaves at every position the old value with the
    first block's contributions to that position added in order, followed
    by the second block's; the length stays the same. *)
Theorem extend_constant_vec_compose
    (const_vec vec1 vec2 : list float) (vert_offset vert_offset' : Z)
    (block block' : Matrix) :
  extend_constant_vec const_vec vert_offset block = Some vec1 ->
  extend_constant_vec vec1 vert_offset' block' = Some vec2 ->
  length vec2 = length const_vec /\
  forall p : nat,
    vec2 !! p
    = (fun x => foldl PrimFloat.add x
                  (contributions vert_offset block p
                   ++ contributions vert_offset' block' p))
      <$> const_vec !! p.
Proof.
  intros (Hlen1 & _ & Hlook1)%extend_constant_vec_Some
         (Hlen2 & _ & Hlook2)%extend_constant_vec_Some.
  split; [congruence|]. intros p. rewrite Hlook2, Hlook1.
  destruct (const_vec !! p) as [x|]; simpl; [|done].
  by rewrite foldl_app.
Qed.

Lemma extend_constant_vec_compose_witness :
  exists vec1 vec2,
    extend_constant_vec zeros8 1 block_3x2 = Some vec1 /\
    extend_constant_vec vec1 2 (scalar_block 4%float) = Some vec2 /\
    vec2 !! 2%nat = Some 4%float /\ vec2 !! 3%nat = Some 4%float.
Proof.
  assert (Hrun1 : extend_constant_vec zeros8 1 block_3x2
                  = Some [0; 1.5; 0; 4; 0; (-2); 0; 0]%float)
    by reflexivity.
  assert (Hrun2 : extend_constant_vec [0; 1.5; 0; 4; 0; (-2); 0; 0]%float 2
                                      (scalar_block 4%float)
                  = Some [0; 1.5; 4; 4; 0; (-2); 0; 0]%float)
    by reflexivity.
  destruct (extend_constant_vec_compose _ _ _ _ _ _ _ Hrun1 Hrun2)
    as [_ Hlook].
  eexists _, _. split; [exact Hrun1|]. split; [exact Hrun2|].
  split; rewrite Hlook; reflexivity.
Defined.

(** *** The triplet accumulator *)

(** X5. [add_matrix_to_vectors] lengthens each of the three sequences by
    the number of stored entries of the block, so sequences of equal
    length stay of equal length; for a well-formed block whose row range
    fits the [int] type the row indices it appends lie from [vert_offset]
    up to, and not including, [vert_offset] plus the number of rows. *)
Theorem add_matrix_to_vectors_lengths_rows
    (block : Matrix) (V0 : list float) (I0 J0 : list Z)
    (vert_offset horiz_offset : Z) :
  let r := add_matrix_to_vectors block V0 I0 J0 vert_offset horiz_offset in
  length r.1.1 = (length V0 + length (nonzeros block))%nat
  /\ length r.1.2 = (length I0 + length (nonzeros block))%nat
  /\ length r.2 = (length J0 + length (nonzeros block))%nat
  /\ (length V0 = length I0 -> length I0 = length J0 ->
      length r.1.1 = length r.1.2 /\ length r.1.2 = length r.2)
  /\ (Matrix_wf block ->
      INT_MIN <= vert_offset ->
      vert_offset + rows block - 1 <= INT_MAX ->
      Forall (fun i => vert_offset <= i < vert_offset + rows block)
             (drop (length I0) r.1.2)).
Proof.
  intros r. subst r. rewrite add_matrix_to_vectors_spec. simpl.
  rewrite !length_app, !length_map.
  split; [done|]. split; [done|]. split; [done|]. split; [lia|].
  intros Hwf Hlow Hhigh. rewrite drop_app_length.
  apply Forall_map.
  eapply Forall_impl; [apply (nonzeros_rows _ Hwf)|].
  intros e He. simpl in *.
  rewrite int_add_exact; [lia|]. unfold int_range. lia.
Qed.

Lemma add_matrix_to_vectors_lengths_rows_witness :
  Forall (fun i => 2 <= i < 5)
         (drop 1 (add_matrix_to_vectors block_3x2 [9%float] [7] [8] 2 5).1.2).
Proof.
  destruct (add_matrix_to_vectors_lengths_rows block_3x2 [9%float] [7] [8] 2 5)
    as (_ & _ & _ & _ & Hrows).
  apply Hrows.
  - repeat split; simpl; try lia. repeat constructor; simpl; lia.
  - unfold INT_MIN. lia.
  - unfold INT_MAX. simpl. lia.
Defined.

(** *** The offset calculator *)

Section OffsetCalculatorMore.
Context `{Collaborators}.

Lemma flattened_sum_shift (constraints : list LinOp) : forall a,
  foldl (fun acc constr => acc + vecprod (size constr)) a constraints
  = a + flattened_sum constraints.
Proof.
  unfold flattened_sum.
  induction constraints as [|c cs IH]; intros a; simpl; [lia|].
  rewrite IH, (IH (0 + _)). lia.
Qed.

Lemma total_length_wrap (constraints : list LinOp) :
  get_total_constraint_length constraints
  = int_wrap (flattened_sum constraints).
Proof. apply total_length_from, zero_in_range. Qed.

(** X6. The sequential total of a concatenation of two constraint lists
    is the [int] sum of the totals of the two lists. *)
Theorem get_total_constraint_length_app (constraints constraints' : list LinOp) :
  get_total_constraint_length (constraints ++ constraints')
  = int_add (get_total_constraint_length constraints)
            (get_total_constraint_length constraints').
Proof.
  rewrite !total_length_wrap. unfold int_add, flattened_sum.
  rewrite foldl_app, flattened_sum_shift.
  by rewrite int_wrap_add_l, int_wrap_add_r.
Qed.

Lemma not_overlapping_adjacent (constraints : list LinOp) constr_offsets
    i constr offset next :
  ~ overlapping constraints constr_offsets ->
  constraints !! i = Some constr ->
  constr_offsets !! i = Some offset ->
  constr_offsets !! S i = Some next ->
  int_add offset (vecprod (size constr)) <= next.
Proof.
  intros Hnone Hc Ho Hn.
  destruct (decide (next < int_add offset (vecprod (size constr))))
    as [Hlt|Hge]; [|lia].
  exfalso. apply Hnone. by exists i, constr, offset, next.
Qed.

(** X7. Offsets that the explicit calculator accepts give disjoint row
    ranges in list order, all below the total it returns, provided no
    flattened size is negative and no range end overflows the [int] type:
    every constraint ends at or before the start of every later one, and
    at or before the returned total. *)
Theorem accepted_offsets_ordered
    (constraints : list LinOp) (constr_offsets : list Z) (num_rows : Z) :
  get_total_constraint_length_offsets constraints constr_offsets
  = Ok num_rows ->
  (forall i constr offset,
     constraints !! i = Some constr -> constr_offsets !! i = Some offset ->
     0 <= vecprod (size constr) /\
     int_range (offset + vecprod (size constr))) ->
  (forall i j constr offset later,
     (i < j)%nat ->
     constraints !! i = Some constr ->
     constr_offsets !! i = Some offset ->
     constr_offsets !! j = Some later ->
     offset + vecprod (size constr) <= later)
  /\ (forall i constr offset,
        constraints !! i = Some constr ->
        constr_offsets !! i = Some offset ->
        offset + vecprod (size constr) <= num_rows).
Proof.
  intros Hok Hfit.
  pose proof Hok as Hinv. apply offsets_Ok_inv in Hinv as [Hlen Hnone].
  assert (Hordered : forall i j constr offset later,
            (i < j)%nat ->
            constraints !! i = Some constr ->
            constr_offsets !! i = Some offset ->
            constr_offsets !! j = Some later ->
            offset + vecprod (size constr) <= later).
  { intros i j. induction j as [|j IH]; intros constr offset later Hij Hc Ho Hl;
      [lia|].
    destruct (decide (i = j)) as [->|Hne].
    - pose proof (not_overlapping_adjacent _ _ _ _ _ _ Hnone Hc Ho Hl) as Hadj.
      destruct (Hfit _ _ _ Hc Ho) as [_ Hrange].
      by rewrite int_add_exact in Hadj.
    - assert (Hj : (j < length constr_offsets)%nat).
      { apply lookup_lt_Some in Hl. lia. }
      destruct (lookup_lt_is_Some_2 constr_offsets j Hj) as [oj Hoj].
      destruct (lookup_lt_is_Some_2 constraints j ltac:(lia)) as [cj Hcj].
      pose proof (IH constr offset oj ltac:(lia) Hc Ho Hoj) as Hfirst.
      pose proof (not_overlapping_adjacent _ _ _ _ _ _ Hnone Hcj Hoj Hl) as Hadj.
      destruct (Hfit _ _ _ Hcj Hoj) as [Hpos Hrange].
      rewrite int_add_exact in Hadj by done. lia. }
  split; [exact Hordered|].
  intros i constr offset Hc Ho.
  unfold get_total_constraint_length_offsets in Hok.
  rewrite decide_False in Hok by tauto.
  rewrite check_offsets_accepts in Hok by done.
  injection Hok as <-.
  rewrite last_lookup.
  assert (Hi : (i < length constraints)%nat) by (by apply lookup_lt_Some in Hc).
  set (k := pred (length (zip constraints constr_offsets))).
  assert (Hk : k = pred (length constraints)).
  { unfold k. rewrite length_zip_with. lia. }
  destruct (lookup_lt_is_Some_2 constraints k ltac:(lia)) as [ck Hck].
  destruct (lookup_lt_is_Some_2 constr_offsets k ltac:(lia)) as [ok Hok].
  assert (Hzip : zip constraints constr_offsets !! k = Some (ck, ok)).
  { apply lookup_zip_with_Some. by exists ck, ok. }
  rewrite Hzip.
  destruct (Hfit _ _ _ Hck Hok) as [Hpos Hrange].
  rewrite int_add_exact by done.
  destruct (decide (i = k)) as [->|Hne].
  - by simplify_eq.
  - pose proof (Hordered i k constr offset ok ltac:(lia) Hc Ho Hok). lia.
Qed.

Lemma gapped_cons constr (constraints : list LinOp) offset constr_offsets :
  gapped (constr :: constraints) (offset :: constr_offsets) <->
  (exists next, constr_offsets !! 0%nat = Some next /\
                int_add offset (vecprod (size constr)) < next)
  \/ gapped constraints constr_offsets.
Proof.
  split.
  - intros (i & c & o & next & Hc & Ho & Hnext & Hlt).
    destruct i as [|i]; simpl in *.
    + left. exists next. by simplify_eq.
    + right. by exists i, c, o, next.
  - intros [(next & Hnext & Hlt) | (i & c & o & next & Hc & Ho & Hnext & Hlt)].
    + by exists 0%nat, constr, offset, next.
    + by exists (S i), c, o, next.
Qed.

(** X8. The running sums are the only offsets without overlap and without
    gap: explicit offsets of the right length in which every constraint
    starts exactly where its predecessor ends, the first one at 0, are the
    offsets the automatic-offset loop assigns, and the explicit calculator
    then returns the sequential total. *)
Theorem contiguous_offsets_are_running_sums
    (constraints : list LinOp) (constr_offsets : list Z) :
  length constraints = length constr_offsets ->
  ~ overlapping constraints constr_offsets ->
  ~ gapped constraints constr_offsets ->
  (forall first, constr_offsets !! 0%nat = Some first -> first = 0) ->
  constr_offsets = running_offsets 0 constraints
  /\ get_total_constraint_length_offsets constraints constr_offsets
     = Ok (get_total_constraint_length constraints).
Proof.
  intros Hlen Hnone Hnogap Hfirst.
  assert (Hgen : forall cs offs v,
            length cs = length offs ->
            ~ overlapping cs offs -> ~ gapped cs offs ->
            (forall first, offs !! 0%nat = Some first -> first = v) ->
            offs = running_offsets v cs).
  { clear. induction cs as [|c cs IH]; intros offs v Hlen Hnone Hnogap Hfirst.
    - by destruct offs.
    - destruct offs as [|o offs]; [done|]. simpl in Hlen.
      rewrite overlapping_cons in Hnone. rewrite gapped_cons in Hnogap.
      assert (o = v) as -> by (by apply Hfirst).
      simpl. f_equal. apply IH; [lia | tauto | tauto |].
      intros first Hhead.
      destruct (Z.lt_trichotomy first (int_add v (vecprod (size c))))
        as [Hlt | [Heq | Hgt]]; [|done|].
      + exfalso. apply Hnone. left. by exists first.
      + exfalso. apply Hnogap. left. by exists first. }
  assert (Heq : constr_offsets = running_offsets 0 constraints)
    by (by apply Hgen).
  split; [done|]. rewrite Heq.
  unfold get_total_constraint_length_offsets.
  rewrite decide_False by (rewrite running_offsets_length; tauto).
  rewrite check_offsets_running. by destruct constraints.
Qed.

End OffsetCalculatorMore.

Lemma accepted_offsets_ordered_witness :
  get_total_constraint_length_offsets (H := demo) demo_constraints [0; 3]
  = Ok 6
  /\ 0 + vecprod (size (Collaborators := demo) demo_constraint) <= 3
  /\ 3 + vecprod (size (Collaborators := demo) plain_constraint) <= 6.
Proof.
  assert (Hok : get_total_constraint_length_offsets (H := demo)
                  demo_constraints [0; 3] = Ok 6) by reflexivity.
  destruct (accepted_offsets_ordered (H := demo) demo_constraints [0; 3] 6 Hok)
    as [Hordered Hbelow].
  { intros i constr offset Hc Ho.
    destruct i as [|[|i]]; [| |done].
    - injection Hc as <-. injection Ho as <-.
      split; [|split]; vm_compute; congruence.
    - injection Hc as <-. injection Ho as <-.
      split; [|split]; vm_compute; congruence. }
  split; [exact Hok|]. split.
  - apply (Hordered 0%nat 1%nat demo_constraint 0 3); [lia|done..].
  - by apply (Hbelow 1%nat plain_constraint 3).
Defined.

Lemma contiguous_offsets_are_running_sums_witness :
  [0; 2] = running_offsets (H := demo) 0 demo_constraints
  /\ get_total_constraint_length_offsets (H := demo) demo_constraints [0; 2]
     = Ok (get_total_constraint_length (H := demo) demo_constraints).
Proof.
  apply (contiguous_offsets_are_running_sums (H := demo) demo_constraints
           [0; 2]).
  - reflexivity.
  - apply demo_offsets_disjoint. lia.
  - intros (i & c & o & next & Hc & Ho & Hn & Hlt).
    destruct i as [|[|i]]; [| |done].
    + injection Hc as <-. injection Ho as <-. injection Hn as <-.
      vm_compute in Hlt. discriminate Hlt.
    + done.
  - intros first [= <-]. reflexivity.
Defined.

(** *** The constraint processor *)

Lemma default_columns_lookup vars : forall (m : gmap Z Z) (k : Z),
  default_columns m vars !! k
  = match m !! k with
    | Some v => Some v
    | None => if decide (k ∈ vars) then Some 0 else None
    end.
Proof.
  unfold default_columns.
  induction vars as [|w vars IH]; intros m k; simpl.
  - destruct (m !! k); [done|].
    by destruct (decide (k ∈ @nil Z)) as [?%elem_of_nil|].
  - rewrite IH. unfold map_index.
    destruct (m !! w) as [vw|] eqn:Hw; simpl.
    + destruct (m !! k) as [v|] eqn:Hk; [done|].
      destruct (decide (k ∈ vars)) as [Hin|Hnin];
        destruct (decide (k ∈ w :: vars)) as [Hin'|Hnin']; try done.
      * exfalso. apply Hnin'. by apply list_elem_of_further.
      * apply elem_of_cons in Hin' as [->|Hin']; [congruence|done].
    + destruct (decide (k = w)) as [->|Hne].
      * rewrite lookup_insert_eq, Hw.
        destruct (decide (w ∈ w :: vars)) as [|Hnin']; [done|].
        exfalso. apply Hnin', list_elem_of_here.
      * rewrite lookup_insert_ne by done.
        destruct (m !! k) as [v|]; [done|].
        destruct (decide (k ∈ vars)) as [Hin|Hnin];
          destruct (decide (k ∈ w :: vars)) as [Hin'|Hnin']; try done.
        -- exfalso. apply Hnin'. by apply list_elem_of_further.
        -- apply elem_of_cons in Hin' as [->|Hin']; done.
Qed.

Lemma default_columns_app m vars vars' :
  default_columns m (vars ++ vars')
  = default_columns (default_columns m vars) vars'.
Proof. apply foldl_app. Qed.

Section ConstraintProcessorMore.
Context `{Collaborators}.

Lemma process_blocks_columns vert_offset var_length param_id var_id blocks :
  forall i m probVec calls,
    (process_blocks vert_offset var_length param_id var_id i blocks
                    (m, probVec, calls)).1.1
    = default_columns m
        (filter (fun w : Z => w <> CONSTANT_ID)
           (map (fun k : Z * Z * nat * Matrix => k.1.1.2)
                (indexed_blocks param_id var_id i blocks))).
Proof.
  induction blocks as [|block blocks IH]; intros i m probVec calls; [done|].
  simpl process_blocks. simpl indexed_blocks. rewrite map_cons.
  destruct (decide (var_id = CONSTANT_ID)) as [Hconst|Hvar].
  - rewrite filter_cons_False by (simpl; tauto).
    rewrite add_matrix_to_vectors_spec. simpl. apply IH.
  - rewrite filter_cons_True by done.
    destruct (map_index m var_id) as [h m1] eqn:Hindex.
    rewrite add_matrix_to_vectors_spec. simpl. rewrite IH.
    unfold default_columns at 2. simpl. by rewrite Hindex.
Qed.

Lemma process_vars_columns vert_offset var_length param_id var_map :
  forall m probVec calls,
    (process_vars vert_offset var_length param_id var_map
                  (m, probVec, calls)).1.1
    = default_columns m (filter (fun w : Z => w <> CONSTANT_ID)
           (map (fun k : Z * Z * nat * Matrix => k.1.1.2)
                (dictmat_blocks param_id var_map))).
Proof.
  unfold process_vars, dictmat_blocks.
  induction var_map as [|[var_id blocks] var_map IH]; intros m probVec calls;
    [done|].
  simpl.
  destruct (process_blocks vert_offset var_length param_id var_id 0 blocks
              (m, probVec, calls)) as [[m1 probVec1] calls1] eqn:Hblocks.
  rewrite IH, map_app, filter_app, default_columns_app. f_equal.
  pose proof (process_blocks_columns vert_offset var_length param_id var_id
                blocks 0 m probVec calls) as Hcols.
  by rewrite Hblocks in Hcols.
Qed.

Lemma process_params_columns vert_offset var_length coeffs :
  forall problemData m calls,
    (process_params vert_offset var_length coeffs
                    (problemData, m, calls)).1.2
    = default_columns m (looked_up_vars coeffs).
Proof.
  unfold process_params, looked_up_vars, tensor_blocks.
  induction coeffs as [|[param_id var_map] coeffs IH];
    intros problemData m calls; [done|].
  simpl.
  destruct (process_vars vert_offset var_length param_id var_map
              (m, [], calls)) as [[m1 probVec1] calls1] eqn:Hvars.
  rewrite IH, map_app, filter_app, default_columns_app. f_equal.
  pose proof (process_vars_columns vert_offset var_length param_id var_map
                m [] calls) as Hcols.
  by rewrite Hvars in Hcols.
Qed.

(** X9. The only effect of [process_constraint] on the column map it is
    handed is that of [operator[]] on the looked-up variable ids: no
    existing entry is changed or removed, a variable id other than
    [CONSTANT_ID] that has a block and no entry is entered with column 0,
    and no other key is added. *)
Theorem process_constraint_column_map
    (lin : LinOp) (problemData : gmap Z (list ProblemData))
    (vert_offset var_length : Z) (id_to_col : gmap Z Z) :
  (process_constraint lin problemData vert_offset var_length id_to_col).1.2
  = default_columns id_to_col (looked_up_vars (lin_to_tensor lin 0))
  /\ forall k : Z,
       (process_constraint lin problemData vert_offset var_length
                           id_to_col).1.2 !! k
       = match id_to_col !! k with
         | Some col => Some col
         | None => if decide (k ∈ looked_up_vars (lin_to_tensor lin 0))
                   then Some 0 else None
         end.
Proof.
  assert (Heq : (process_constraint lin problemData vert_offset var_length
                                    id_to_col).1.2
                = default_columns id_to_col
                                  (looked_up_vars (lin_to_tensor lin 0))).
  { apply process_params_columns. }
  split; [exact Heq|]. intros k. rewrite Heq. apply default_columns_lookup.
Qed.

(** X10. [process_constraint] replaces the tensor's sequence for every
    parameter id in the evaluator's result by the empty sequence, whatever
    the tensor held there, and leaves the sequence of every other id as it
    was; the outcome does not depend on the offsets or the column map, and
    processing the same constraint once more changes nothing in the
    tensor. *)
Theorem process_constraint_tensor
    (lin : LinOp) (problemData : gmap Z (list ProblemData))
    (vert_offset var_length : Z) (id_to_col : gmap Z Z) :
  (forall q,
     (process_constraint lin problemData vert_offset var_length
                         id_to_col).1.1 !! q
     = if decide (q ∈ map fst (lin_to_tensor lin 0)) then Some []
       else problemData !! q)
  /\ (forall vert_offset' var_length' id_to_col',
        (process_constraint lin problemData vert_offset' var_length'
                            id_to_col').1.1
        = (process_constraint lin problemData vert_offset var_length
                              id_to_col).1.1)
  /\ (forall vert_offset' var_length' id_to_col',
        (process_constraint lin
           (process_constraint lin problemData vert_offset var_length
                               id_to_col).1.1
           vert_offset' var_length' id_to_col').1.1
        = (process_constraint lin problemData vert_offset var_length
                              id_to_col).1.1).
Proof.
  assert (Hlook : forall pd vo vl m q,
            (process_constraint lin pd vo vl m).1.1 !! q
            = if decide (q ∈ map fst (lin_to_tensor lin 0)) then Some []
              else pd !! q).
  { intros pd vo vl m q.
    by destruct (process_constraint_spec lin pd vo vl m)
      as (pd' & m' & calls & -> & Hlook & _). }
  split; [apply Hlook|]. split.
  - intros vo' vl' m'. apply map_eq. intros q. by rewrite !Hlook.
  - intros vo' vl' m'. apply map_eq. intros q. rewrite !Hlook.
    by case_decide.
Qed.

End ConstraintProcessorMore.

(** *** The matrix builder *)

Section MatrixBuilderMore.
Context `{Collaborators}.

Lemma build_matrix_from_init (constraints : list LinOp) var_length id_to_col
    (param_to_size : gmap Z Z) prob_data :
  init_data_tensor param_to_size = Ok prob_data ->
  exists t,
    build_matrix constraints var_length id_to_col param_to_size = Ok t
    /\ forall q, t !! q
                 = if decide (q ∈ touched_params constraints) then Some []
                   else (fun n => replicate (Z.to_nat n) empty_ProblemData)
                        <$> param_to_size !! q.
Proof.
  intros Hinit.
  destruct (build_explicit_from_init constraints var_length
              (running_offsets 0 constraints) id_to_col param_to_size
              prob_data Hinit)
    as (t & m & calls & Heq & _ & Hlook & _).
  { by rewrite running_offsets_length. }
  exists t. split; [|done].
  unfold build_matrix, build_matrix_run. rewrite Hinit. simpl.
  by rewrite build_sequential_explicit, Heq.
Qed.

Lemma build_matrix_init_fails (constraints : list LinOp) var_length id_to_col
    (param_to_size : gmap Z Z) e :
  init_data_tensor param_to_size = Fail e ->
  build_matrix constraints var_length id_to_col param_to_size = Fail e.
Proof.
  intros Hinit. unfold build_matrix, build_matrix_run. by rewrite Hinit.
Qed.

(** X11. The automatic-offset [build_matrix] fails only when a declared
    parameter size is negative, and returns otherwise.  The tensor it
    returns has an entry for exactly the declared parameter ids and the ids
    found in some constraint's evaluator result: the empty sequence for
    the latter, also when the id was never declared, and the declared
    number of empty records for the others. *)
Theorem build_matrix_exact
    (constraints : list LinOp) (var_length : Z)
    (id_to_col param_to_size : gmap Z Z) :
  (map_Forall (fun _ n => 0 <= n) param_to_size <->
   exists t,
     build_matrix constraints var_length id_to_col param_to_size = Ok t)
  /\ (~ map_Forall (fun _ n => 0 <= n) param_to_size <->
      build_matrix constraints var_length id_to_col param_to_size
      = Fail BadVectorSize)
  /\ (forall t,
        build_matrix constraints var_length id_to_col param_to_size = Ok t ->
        (forall q,
           t !! q
           = if decide (q ∈ touched_params constraints) then Some []
             else (fun n => replicate (Z.to_nat n) empty_ProblemData)
                  <$> param_to_size !! q)
        /\ dom t
           = dom param_to_size ∪ list_to_set (touched_params constraints)).
Proof.
  destruct (init_data_tensor_spec param_to_size) as [[Hall Hinit] | [Hnot Hinit]].
  - destruct (build_matrix_from_init constraints var_length id_to_col
                param_to_size _ Hinit) as (t & Hbuild & Hlook).
    rewrite Hbuild. split; [|split].
    + split; [by eexists | done].
    + split; [done | discriminate].
    + intros t' [= <-]. split; [done|].
      apply set_eq. intros q.
      rewrite elem_of_dom, Hlook, elem_of_union, elem_of_list_to_set,
        elem_of_dom.
      case_decide as Hq.
      * split; [by right | by eexists].
      * rewrite <- !not_eq_None_Some.
        destruct (param_to_size !! q); simpl; split; intros Hx;
          try tauto; try done.
        by left.
  - rewrite (build_matrix_init_fails _ _ _ _ _ Hinit). split; [|split].
    + split; [done | by intros [t Ht]].
    + done.
    + discriminate.
Qed.

(** X12. What [build_matrix] returns depends on the constraints only
    through the set of parameter ids in their evaluator results: it is the
    same for any variable-column width, any column map and any order of
    the constraints, and an explicit-offset build whose offsets are
    accepted, whatever they are, returns the tensor of the automatic
    build. *)
Theorem build_matrix_depends_on_touched
    (constraints : list LinOp) (var_length : Z)
    (id_to_col param_to_size : gmap Z Z) :
  (forall (constraints' : list LinOp) var_length' id_to_col',
     (forall p, p ∈ touched_params constraints <->
                p ∈ touched_params constraints') ->
     build_matrix constraints' var_length' id_to_col' param_to_size
     = build_matrix constraints var_length id_to_col param_to_size)
  /\ (forall constraints' : list LinOp,
        constraints' ≡ₚ constraints ->
        build_matrix constraints' var_length id_to_col param_to_size
        = build_matrix constraints var_length id_to_col param_to_size)
  /\ (forall constr_offsets t,
        build_matrix_offsets constraints var_length id_to_col param_to_size
                             constr_offsets = Ok t ->
        build_matrix constraints var_length id_to_col param_to_size = Ok t).
Proof.
  assert (Hsame : forall (constraints' : list LinOp) var_length' id_to_col',
            (forall p, p ∈ touched_params constraints <->
                       p ∈ touched_params constraints') ->
            build_matrix constraints' var_length' id_to_col' param_to_size
            = build_matrix constraints var_length id_to_col param_to_size).
  { intros constraints' var_length' id_to_col' Hiff.
    destruct (init_data_tensor param_to_size) as [prob_data|e] eqn:Hinit.
    - destruct (build_matrix_from_init constraints var_length id_to_col
                  param_to_size _ Hinit) as (t & -> & Hlook).
      destruct (build_matrix_from_init constraints' var_length' id_to_col'
                  param_to_size _ Hinit) as (t' & -> & Hlook').
      f_equal. apply map_eq. intros q. rewrite Hlook, Hlook'.
      destruct (decide (q ∈ touched_params constraints)) as [Hin|Hnin];
        destruct (decide (q ∈ touched_params constraints')) as [Hin'|Hnin'];
        try done; exfalso; by apply Hiff in Hin || apply Hiff in Hin'.
    - by rewrite !(build_matrix_init_fails _ _ _ _ _ Hinit). }
  split; [exact Hsame|]. split.
  - intros constraints' Hperm. apply Hsame. intros p.
    rewrite !touched_params_elem.
    split; intros (constr & var_map & Hconstr & Hpair);
      exists constr, var_map; split; try done.
    + by rewrite Hperm.
    + by rewrite <- Hperm.
  - intros offs t (st & Hrun & ->)%build_matrix_offsets_inv.
    apply build_matrix_offsets_run_inv in Hrun
      as (prob_data & Hinit & Hlen & _ & ->).
    destruct (build_matrix_from_init constraints var_length id_to_col
                param_to_size _ Hinit) as (t & -> & Hlook).
    destruct (build_explicit_from_init constraints var_length offs id_to_col
                param_to_size prob_data Hinit Hlen)
      as (t' & m & calls & -> & _ & Hlook' & _).
    simpl. f_equal. apply map_eq. intros q. by rewrite Hlook, Hlook'.
Qed.

End MatrixBuilderMore.

Lemma build_matrix_exact_witness :
  exists t,
    build_matrix (H := demo) demo_constraints 6 demo_columns demo_sizes = Ok t
    /\ t !! 8 = None
    /\ dom t = dom demo_sizes ∪ list_to_set [7].
Proof.
  destruct (build_matrix_exact (H := demo) demo_constraints 6 demo_columns
              demo_sizes) as (Hreturns & _ & Hslots).
  destruct (proj1 Hreturns) as [t Ht].
  { unfold demo_sizes. apply map_Forall_insert_2; [lia|].
    apply map_Forall_insert_2; [lia|]. apply map_Forall_empty. }
  destruct (Hslots t Ht) as [Hlook Hdom].
  exists t. split; [exact Ht|]. split; [|exact Hdom].
  rewrite Hlook. reflexivity.
Defined.

Lemma build_matrix_depends_on_touched_witness :
  build_matrix (H := demo) [plain_constraint; demo_constraint] 0 ∅ demo_sizes
  = build_matrix (H := demo) demo_constraints 6 demo_columns demo_sizes
  /\ build_matrix (H := demo) demo_constraints 6 demo_columns demo_sizes
     = Ok {[ 7 := []; 9 := replicate 3 empty_ProblemData ]}.
Proof.
  destruct (build_matrix_depends_on_touched (H := demo) demo_constraints 6
              demo_columns demo_sizes) as (Hsame & _ & Hoffsets).
  split.
  - apply Hsame. intros p. reflexivity.
  - apply (Hoffsets [0; 3]). reflexivity.
Defined.

Section MatrixBuilderOutcome.
Context `{Collaborators}.

Lemma check_offsets_Fail_inv (constraints : list LinOp) :
  forall constr_offsets offset_end e,
    check_offsets constraints constr_offsets offset_end = Fail e ->
    e = NotMonotone /\ overlapping constraints constr_offsets.
Proof.
  induction constraints as [|c cs IH]; intros offs offset_end e Hfail;
    [done|].
  destruct offs as [|o offs]; [done|]. simpl in Hfail.
  destruct offs as [|next offs].
  - by destruct cs.
  - case_decide as Hlt.
    + injection Hfail as <-. split; [done|].
      apply overlapping_cons. left. by exists next.
    + apply IH in Hfail as [-> Hover]. split; [done|].
      apply overlapping_cons. by right.
Qed.

(** X13. The explicit-offset [build_matrix] ends in exactly one of four
    ways, decided in this order: with the vector-size failure if and only
    if some declared parameter size is negative, whatever the offsets are;
    otherwise with the length-mismatch error if and only if the two lists
    differ in length; otherwise with the ordering error if and only if some
    constraint starts before its predecessor ends; and it returns a tensor
    in the one remaining case. *)
Theorem build_matrix_offsets_outcome
    (constraints : list LinOp) (var_length : Z)
    (id_to_col param_to_size : gmap Z Z) (constr_offsets : list Z) :
  (build_matrix_offsets constraints var_length id_to_col param_to_size
                        constr_offsets = Fail BadVectorSize
   <-> ~ map_Forall (fun _ n => 0 <= n) param_to_size)
  /\ (build_matrix_offsets constraints var_length id_to_col param_to_size
                           constr_offsets = Fail LengthMismatch
      <-> map_Forall (fun _ n => 0 <= n) param_to_size /\
          length constraints <> length constr_offsets)
  /\ (build_matrix_offsets constraints var_length id_to_col param_to_size
                           constr_offsets = Fail NotMonotone
      <-> map_Forall (fun _ n => 0 <= n) param_to_size /\
          length constraints = length constr_offsets /\
          overlapping constraints constr_offsets)
  /\ ((exists t,
         build_matrix_offsets constraints var_length id_to_col param_to_size
                              constr_offsets = Ok t)
      <-> map_Forall (fun _ n => 0 <= n) param_to_size /\
          length constraints = length constr_offsets /\
          ~ overlapping constraints constr_offsets).
Proof.
  unfold build_matrix_offsets, build_matrix_offsets_run,
    get_total_constraint_length_offsets.
  destruct (init_data_tensor_spec param_to_size)
    as [[Hall ->] | [Hnot ->]]; simpl.
  2: { split; [done|]. split; [|split]; (split; [|tauto]);
         try discriminate. by intros [t Ht]. }
  case_decide as Hlen; simpl.
  { split; [split; [discriminate | tauto]|].
    split; [tauto|]. split; (split; [|tauto]); try discriminate.
    by intros [t Ht]. }
  assert (Hlen' : length constraints = length constr_offsets).
  { destruct (decide (length constraints = length constr_offsets)); tauto. }
  destruct (check_offsets constraints constr_offsets 0) as [num_rows|e]
    eqn:Hcheck; simpl.
  - assert (Hnone : ~ overlapping constraints constr_offsets).
    { intros Hover. by rewrite check_offsets_overlapping in Hcheck. }
    split; [split; [discriminate | tauto]|].
    split; [split; [discriminate | tauto]|].
    split; [split; [discriminate | tauto]|].
    split; [done | by eexists].
  - apply check_offsets_Fail_inv in Hcheck as [-> Hover].
    split; [split; [discriminate | tauto]|].
    split; [split; [discriminate | tauto]|].
    split; [done|].
    split; [by intros [t Ht] | tauto].
Qed.

End MatrixBuilderOutcome.

Lemma build_matrix_offsets_outcome_witness :
  build_matrix_offsets (H := demo) demo_constraints 6 demo_columns
                       {[ 7 := -1 ]} [0] = Fail BadVectorSize
  /\ exists t,
       build_matrix_offsets (H := demo) demo_constraints 6 demo_columns
                            demo_sizes [5; 9] = Ok t.
Proof.
  split.
  - apply (build_matrix_offsets_outcome (H := demo) demo_constraints 6
             demo_columns {[ 7 := -1 ]} [0]).
    intros Hall. specialize (Hall 7 (-1) eq_refl). simpl in Hall. lia.
  - apply (build_matrix_offsets_outcome (H := demo) demo_constraints 6
             demo_columns demo_sizes [5; 9]).
    split; [|split; [reflexivity|]].
    + unfold demo_sizes. apply map_Forall_insert_2; [lia|].
      apply map_Forall_insert_2; [lia|]. apply map_Forall_empty.
    + intros (i & c & o & next & Hc & Ho & Hn & Hlt).
      destruct i as [|[|i]]; [| |done].
      * injection Hc as <-. injection Ho as <-. injection Hn as <-.
        vm_compute in Hlt. discriminate Hlt.
      * done.
Defined.


(** *** The triplets of a block and the tensor *)

(** C4 (defect of the code).  Processing the constraint of shape (2,1)
    whose evaluator result holds, for parameter 7 and variable 3, the
    2 x 2 diagonal block, with vertical offset 0, variable-column width 6
    and variable 3 declared at column 4, on the freshly initialised
    tensor: the accumulator is run on the block and computes its two
    triplets with the column indices 4 and 5, inside the range from 4 up
    to 6, but into the local [probBlock], of which an empty copy had been
    pushed before; the tensor that [process_constraint] leaves, and the
    one [build_matrix] returns, hold the empty sequence for parameter 7.
    No triplet of the block is recorded in the output. *)
Theorem process_constraint_block_triplets_lost :
  (exists c,
     (process_constraint (H := demo) demo_constraint demo_tensor 0 6
                         demo_columns).2 !! 2%nat = Some c
     /\ bc_param c = 7 /\ bc_var c = 3
     /\ bc_block c = diagonal_block 2%float
     /\ bc_horiz c = 4
     /\ bc_pushed c = empty_ProblemData
     /\ bc_probBlock c
        = {| V := [2%float; 2%float]; I := [0; 1]; J := [4; 5] |})
  /\ init_data_tensor demo_sizes = Ok demo_tensor
  /\ (process_constraint (H := demo) demo_constraint demo_tensor 0 6
                         demo_columns).1.1
     = {[ 7 := []; 9 := replicate 3 empty_ProblemData ]}
  /\ build_matrix (H := demo) demo_constraints 6 demo_columns demo_sizes
     = Ok {[ 7 := []; 9 := replicate 3 empty_ProblemData ]}
  /\ build_matrix_offsets (H := demo) demo_constraints 6 demo_columns
                          demo_sizes [0; 2]
     = Ok {[ 7 := []; 9 := replicate 3 empty_ProblemData ]}.
Proof.
  split; [|split; [|split; [|split]]].
  - eexists. split; [vm_compute; reflexivity|]. by repeat split.
  - vm_compute. reflexivity.
  - vm_compute. reflexivity.
  - vm_compute. reflexivity.
  - vm_compute. reflexivity.
Qed.
